(** * MapBuilder: the spatial accumulation engine of [object_det_cloud.py]

    A shallow embedding of [rob7_760_2024/object_det_cloud.py] and the
    properties of its admission gate, batch reducer, merger and serializer.

    Python floats are IEEE-754 binary64 values.  They are modelled by the
    Standard Library's [spec_float] with the operations of [SpecFloat] at
    precision 53 and maximal exponent 1024, so every definition below computes
    the very bits the interpreter computes.  The wire format's float32 is the
    same specification at precision 24 and maximal exponent 128. *)

From Stdlib Require Import ZArith List Bool Lia String.
From Stdlib Require Import SpecFloat PrimFloat FloatOps.
From coqutil Require Import Byte Word.LittleEndianList.
Import ListNotations.

Set Warnings "-inexact-float".
Local Open Scope Z_scope.

(** ** Exceptions and the error monad *)

(** The exceptions a pass through [pointcloud_callback] can meet.  The last
    five are the ones [tf2_ros]'s [lookup_transform] raises. *)
Inductive exn : Type :=
| OverflowError            (* float ** 2 out of range *)
| ValueError               (* math.sqrt of a negative number *)
| StructError              (* struct.pack: 'I' argument out of range *)
| LookupException
| ConnectivityException
| ExtrapolationException
| InvalidArgumentException
| TimeoutException.

Inductive result (A : Type) : Type :=
| Ok (a : A)
| Raise (e : exn).
Arguments Ok {A} a.
Arguments Raise {A} e.

Definition bind {A B : Type} (m : result A) (k : A -> result B) : result B :=
  match m with
  | Ok a => k a
  | Raise e => Raise e
  end.

Notation "x <- m ;; k" := (bind m (fun x => k))
  (at level 61, m at next level, right associativity).

(** ** Python floats *)

Definition float : Type := spec_float.

Module F64.
Definition prec : Z := 53.
Definition emax : Z := 1024.

Definition add : float -> float -> float := SFadd prec emax.
Definition sub : float -> float -> float := SFsub prec emax.
Definition mul : float -> float -> float := SFmul prec emax.
Definition div : float -> float -> float := SFdiv prec emax.
Definition ltb : float -> float -> bool := SFltb.
Definition leb : float -> float -> bool := SFleb.

(** [math.isnan] and [math.isinf]. *)
Definition isnan (v : float) : bool :=
  match v with S754_nan => true | _ => false end.
Definition isinf (v : float) : bool :=
  match v with S754_infinity _ => true | _ => false end.

(** [float(n)] for a Python int [n]: the nearest binary64 value, ties to
    even.  (The stamps converted below are 64-bit nanosecond counts, far
    from the range where Python raises instead.) *)
Definition of_int (n : Z) : float := binary_normalize prec emax n 0 false.

(** [v ** 2].  [float.__pow__] answers NaN and infinities itself; for a
    finite base it calls the C library's [pow] and raises [OverflowError]
    when the result overflows ([1e200 ** 2] raises, where [1e200 * 1e200]
    is [inf]).  An underflow to zero is not an error. *)
Definition pow2 (v : float) : result float :=
  match v with
  | S754_nan => Ok S754_nan
  | S754_infinity _ => Ok (S754_infinity false)
  | _ => if isinf (mul v v) then Raise OverflowError else Ok (mul v v)
  end.

(** [math.sqrt v]: [ValueError] on a negative argument. *)
Definition sqrt (v : float) : result float :=
  match v with
  | S754_finite true _ _ | S754_infinity true => Raise ValueError
  | _ => Ok (SFsqrt prec emax v)
  end.
End F64.

(** The literals of the source, as the interpreter reads them. *)
Definition lit_0_002 : float := Eval vm_compute in Prim2SF 0.002.
Definition lit_0_01 : float := Eval vm_compute in Prim2SF 0.01.
Definition lit_0_1 : float := Eval vm_compute in Prim2SF 0.1.
Definition lit_1e9 : float := Eval vm_compute in Prim2SF 1e9.

(** ** Float32, the wire precision *)

Module F32.
Definition prec : Z := 24.
Definition emax : Z := 128.

(** The C conversion [(float) v] of a double, which is what [struct.pack]
    stores for the native format character ['f']: round to the nearest
    float32, ties to even, infinity beyond the float32 range. *)
Definition of_double (v : float) : spec_float :=
  match v with
  | S754_finite s m e => binary_normalize prec emax (cond_Zopp s (Zpos m)) e s
  | _ => v
  end.

(** The IEEE-754 binary32 interchange encoding: sign, 8 exponent bits, 23
    fraction bits.  NaN is the quiet NaN [0x7fc00000]. *)
Definition sign_bit (s : bool) : Z := if s then 2 ^ 31 else 0.

Definition to_bits (v : spec_float) : Z :=
  match v with
  | S754_zero s => sign_bit s
  | S754_infinity s => sign_bit s + 255 * 2 ^ 23
  | S754_nan => 255 * 2 ^ 23 + 2 ^ 22
  | S754_finite s m e =>
      if Z.pos m <? 2 ^ 23
      then sign_bit s + Z.pos m
      else sign_bit s + (e + 150) * 2 ^ 23 + (Z.pos m - 2 ^ 23)
  end.

Definition of_bits (w : Z) : spec_float :=
  let s := Z.testbit w 31 in
  let ex := (w / 2 ^ 23) mod 2 ^ 8 in
  let fr := w mod 2 ^ 23 in
  if ex =? 0 then
    match fr with
    | Z.pos m => S754_finite s m (-149)
    | _ => S754_zero s
    end
  else if ex =? 255 then
    if fr =? 0 then S754_infinity s else S754_nan
  else
    match fr + 2 ^ 23 with
    | Z.pos m => S754_finite s m (ex - 150)
    | _ => S754_nan
    end.
End F32.

(** ** Data model *)

(** A point dictionary [{'x': .., 'y': .., 'z': ..}]; [label] is added to it
    when it is stored. *)
Record Coords : Type := mkCoords { px : float; py : float; pz : float }.
Record Point : Type := mkPoint { coords :> Coords; label : Z }.

(** [msg.header.stamp] and [transform.header.stamp] as the nanosecond count
    [rclpy.time.Time] carries, a 64-bit integer.  The difference of two of
    them is a duration whose [nanoseconds] is the difference of the counts. *)
Definition Time : Type := Z.

(** The incoming [PointCloud2], with its records already decoded. *)
Record PointCloud2In : Type := mkCloudIn {
  in_stamp : Time;
  in_frame_id : string;
  in_points : list Point
}.

Record TransformStamped : Type := mkTransform {
  tf_stamp : Time;
  tf_frame_id : string;
  translation : Coords;
  rotation : float * float * float * float
}.

(** The published [PointCloud2].  Its header's stamp, a reading of the
    node's clock, is left out. *)
Record PointField : Type := mkField {
  f_name : string; f_offset : Z; f_datatype : Z; f_count : Z
}.
Definition FLOAT32 : Z := 7.
Definition UINT32 : Z := 6.

Record PointCloud2 : Type := mkCloud {
  frame_id : string;
  height : Z;
  width : Z;
  fields : list PointField;
  is_bigendian : bool;
  point_step : Z;
  row_step : Z;
  is_dense : bool;
  data : list byte
}.

(** ** The node's functions *)

(** [is_valid_point]: no coordinate is NaN or infinite. *)
Definition is_valid_point (point : Coords) : bool :=
  negb (existsb (fun v => F64.isnan v || F64.isinf v)
          [px point; py point; pz point]).

(** The distance expression shared by [reduce_points] and
    [is_point_too_close]:
    [math.sqrt((p.x - f.x) ** 2 + (p.y - f.y) ** 2 + (p.z - f.z) ** 2)]. *)
Definition dist (point f_point : Coords) : result float :=
  dx2 <- F64.pow2 (F64.sub (px point) (px f_point)) ;;
  dy2 <- F64.pow2 (F64.sub (py point) (py f_point)) ;;
  dz2 <- F64.pow2 (F64.sub (pz point) (pz f_point)) ;;
  F64.sqrt (F64.add (F64.add dx2 dy2) dz2).

(** The scan both [reduce_points] (lines 187-197) and [is_point_too_close]
    (lines 213-224) run over the points kept so far, each with its own
    [distance_threshold]: go through them in order, skip the invalid ones,
    stop at the first one closer than the threshold. *)
Fixpoint scan (distance_threshold : float) (point : Coords)
  (others : list Point) : result bool :=
  match others with
  | [] => Ok false
  | f_point :: rest =>
      if negb (is_valid_point f_point) then scan distance_threshold point rest
      else
        d <- dist point f_point ;;
        if F64.ltb d distance_threshold then Ok true
        else scan distance_threshold point rest
  end.

(** The outer loop of [reduce_points], with [filtered_points] as its state. *)
Fixpoint reduce_loop (filtered_points points : list Point)
  : result (list Point) :=
  match points with
  | [] => Ok filtered_points
  | point :: rest =>
      if negb (is_valid_point point) then reduce_loop filtered_points rest
      else
        too_close <- scan lit_0_002 point filtered_points ;;
        if too_close then reduce_loop filtered_points rest
        else reduce_loop (filtered_points ++ [point]) rest
  end.

Definition reduce_points (points : list Point) : result (list Point) :=
  reduce_loop [] points.

Definition is_point_too_close (transformed_points : list Point)
  (point : Coords) : result bool :=
  if negb (is_valid_point point) then Ok true
  else scan lit_0_01 point transformed_points.

(** [extract_points_from_pointcloud2]: [read_points] is called with
    [skip_nans=True], which leaves out every record holding a NaN. *)
Definition extract_points_from_pointcloud2 (msg : PointCloud2In)
  : list Point :=
  filter (fun p : Point => negb (F64.isnan (px p) || F64.isnan (py p)
                         || F64.isnan (pz p)))
         (in_points msg).

(** [struct.pack('fffI', x, y, z, label)] in native mode on the little-endian
    hosts ROS 2 runs on: three C floats and one C unsigned int, 4 bytes each,
    no padding.  ['I'] raises [struct.error] outside [0, 2^32). *)
Definition pack_f (v : float) : list byte := le_split 4 (F32.to_bits (F32.of_double v)).

Definition pack_I (n : Z) : result (list byte) :=
  if (0 <=? n) && (n <? 2 ^ 32) then Ok (le_split 4 n) else Raise StructError.

Definition pack_fffI (point : Point) : result (list byte) :=
  l <- pack_I (label point) ;;
  Ok (pack_f (px point) ++ pack_f (py point) ++ pack_f (pz point) ++ l).

(** The serialization loop of [publish_point_cloud] (lines 164-167). *)
Fixpoint cloud_data (transformed_points : list Point) : result (list byte) :=
  match transformed_points with
  | [] => Ok []
  | point :: rest =>
      r <- pack_fffI point ;;
      d <- cloud_data rest ;;
      Ok (r ++ d)
  end.

(** [publish_point_cloud]: [Ok None] when the early return is taken,
    [Ok (Some m)] when [m] is handed to the publisher. *)
Definition publish_point_cloud (transformed_points : list Point)
  : result (option PointCloud2) :=
  match transformed_points with
  | [] => Ok None
  | _ =>
      let w := Z.of_nat (List.length transformed_points) in
      d <- cloud_data transformed_points ;;
      Ok (Some {|
        frame_id := "map"%string;
        height := 1;
        width := w;
        fields := [ mkField "x"%string 0 FLOAT32 1;
                    mkField "y"%string 4 FLOAT32 1;
                    mkField "z"%string 8 FLOAT32 1;
                    mkField "label"%string 12 UINT32 1 ];
        is_bigendian := false;
        point_step := 16;
        row_step := 16 * w;
        is_dense := true;
        data := d |})
  end.

(** What one call of [pointcloud_callback] ends in. *)
Inductive outcome : Type :=
| LookupDropped (e : exn)                (* line 62: warn and return *)
| StaleDropped                           (* line 56: warn and return *)
| Completed (pub : option PointCloud2)   (* line 83 reached and returned *)
| Raised (e : exn).                      (* an exception left the callback *)

Section Node.

(** [tf2_geometry_msgs.do_transform_point], the library's rigid transform;
    [None] when it raises. *)
Variable do_transform_point : TransformStamped -> Coords -> option Coords.

Definition nonfinite (v : float) : bool := F64.isnan v || F64.isinf v.

(** [transform_point], for the transform the lookup answered (never
    Python's [None]); the [try] catches every exception of the library call
    and answers [None]. *)
Definition transform_point (point : Point) (transform : TransformStamped)
  : option Coords :=
  let t := translation transform in
  let '(rx, ry, rz, rw) := rotation transform in
  if existsb nonfinite [px t; py t; pz t] then None
  else if existsb nonfinite [rx; ry; rz; rw] then None
  else do_transform_point transform point.

(** The merge loop (lines 71-80), with [self.transformed_points] as its
    state: the list it reads in [is_point_too_close] is the one it appends
    to.  It returns the list as the loop left it and whether an exception
    ended it. *)
Fixpoint merge_loop (transformed_points : list Point)
  (transform : TransformStamped) (points : list Point)
  : list Point * option exn :=
  match points with
  | [] => (transformed_points, None)
  | point :: rest =>
      match transform_point point transform with
      | None => merge_loop transformed_points transform rest
      | Some transformed_point =>
          match is_point_too_close transformed_points transformed_point with
          | Raise e => (transformed_points, Some e)
          | Ok true => merge_loop transformed_points transform rest
          | Ok false =>
              merge_loop
                (transformed_points
                   ++ [mkPoint transformed_point (label point)])
                transform rest
          end
      end
  end.

(** Lines 50-51: the stamps' difference in nanoseconds, divided by [1e9]. *)
Definition time_diff (transform : TransformStamped) (msg : PointCloud2In)
  : float :=
  F64.div (F64.of_int (tf_stamp transform - in_stamp msg)) lit_1e9.

(** Whether [except (LookupException, ConnectivityException,
    ExtrapolationException)] catches [e]. *)
Definition caught (e : exn) : bool :=
  match e with
  | LookupException | ConnectivityException | ExtrapolationException => true
  | _ => false
  end.

(** [pointcloud_callback]: the accumulated list after the call and how the
    call ended.  [lookup] is what [self.tf_buffer.lookup_transform]
    answered for this message. *)
Definition pointcloud_callback (transformed_points : list Point)
  (msg : PointCloud2In) (lookup : result TransformStamped)
  : list Point * outcome :=
  match lookup with
  | Raise e =>
      if caught e then (transformed_points, LookupDropped e)
      else (transformed_points, Raised e)
  | Ok transform =>
      if F64.ltb lit_0_1 (time_diff transform msg)
      then (transformed_points, StaleDropped)
      else
        match reduce_points (extract_points_from_pointcloud2 msg) with
        | Raise e => (transformed_points, Raised e)
        | Ok points =>
            match merge_loop transformed_points transform points with
            | (acc, Some e) => (acc, Raised e)
            | (acc, None) =>
                match publish_point_cloud acc with
                | Raise e => (acc, Raised e)
                | Ok pub => (acc, Completed pub)
                end
            end
        end
  end.

(** The node's life: [self.transformed_points] starts empty and the
    callback runs once per message, one message after the other. *)
Fixpoint run (transformed_points : list Point)
  (inputs : list (PointCloud2In * result TransformStamped)) : list Point :=
  match inputs with
  | [] => transformed_points
  | (msg, lookup) :: rest =>
      run (fst (pointcloud_callback transformed_points msg lookup)) rest
  end.

End Node.

(** ** Sparsity *)

(** [separated thr p q]: the distance expression of the source, evaluated
    for the later point [q] against the earlier point [p] as the scans
    evaluate it, returns a distance [d] with [thr <= d]. *)
Definition separated (thr : float) (p q : Coords) : Prop :=
  exists d, dist q p = Ok d /\ F64.leb thr d = true.

(** A list in insertion order is sparse at [thr] when its points are valid
    and every point is separated from every point inserted before it. *)
Definition sparse (thr : float) (l : list Point) : Prop :=
  Forall (fun p : Point => is_valid_point p = true) l
  /\ ForallOrdPairs (fun p q : Point => separated thr p q) l.

(** The merge as the specification words it: every candidate of the batch is
    tested against [before], the set as it was when the batch began. *)
Section Snapshot.
Variable do_transform_point : TransformStamped -> Coords -> option Coords.

End Snapshot.

(** ** Classes of binary64 values used in the proofs *)

(** A coordinate that passes [is_valid_point] is a zero or a finite number. *)
Definition finite (v : float) : bool := negb (F64.isnan v || F64.isinf v).

(** A coordinate in range: a well-formed binary64 datum of magnitude below
    [2 ^ 500]. *)
Definition in_range (v : float) : bool :=
  match v with
  | S754_finite _ m e =>
      bounded F64.prec F64.emax m e && (Z.pos (digits2_pos m) + e <=? 500)
  | _ => true
  end.

Definition point_in_range (p : Coords) : bool :=
  in_range (px p) && in_range (py p) && in_range (pz p).

(** Zero or a finite number of magnitude below [2 ^ k]. *)
Definition below (k : Z) (v : float) : Prop :=
  match v with
  | S754_zero _ => True
  | S754_finite _ m e =>
      bounded F64.prec F64.emax m e = true /\ Z.pos (digits2_pos m) + e <= k
  | _ => False
  end.

(** Non-negative, possibly infinite, never NaN. *)
Definition nonneg (v : float) : Prop :=
  match v with
  | S754_zero false | S754_finite false _ _ | S754_infinity false => True
  | _ => False
  end.

(** Zero or negative, possibly infinite, never NaN. *)
Definition nonpos (v : float) : Prop :=
  match v with
  | S754_zero _ | S754_finite true _ _ | S754_infinity true => True
  | _ => False
  end.

(** The mantissa of [1e9]. *)
Definition mant_1e9 : Z := 8388608000000000.

(** [SpecFloat] states its definitions with the core library's integer
    operations; [zfold] restates them with [Z]'s for [lia]. *)
Ltac zfold :=
  change IntDef.Z.sub with Z.sub in *; change IntDef.Z.add with Z.add in *;
  change IntDef.Z.max with Z.max in *; change IntDef.Z.min with Z.min in *;
  change IntDef.Z.mul with Z.mul in *; change IntDef.Z.opp with Z.opp in *.

(** ** The wire format, as its consumer reads it *)

(** Modelled from the spec: the consumer's reading of the buffer, one
    16-byte record after the other, [x], [y] and [z] as little-endian
    float32 at offsets 0, 4 and 8 and [label] as little-endian uint32 at
    offset 12.  The consumer is not part of the repository; the serializer
    is, and is the definition [cloud_data] above. *)
Definition field (offset : nat) (record : list byte) : Z :=
  le_combine (firstn 4 (skipn offset record)).

Definition decode_record (record : list byte)
  : spec_float * spec_float * spec_float * Z :=
  (F32.of_bits (field 0 record), F32.of_bits (field 4 record),
   F32.of_bits (field 8 record), field 12 record).

Fixpoint decode_records (n : nat) (buf : list byte)
  : list (spec_float * spec_float * spec_float * Z) :=
  match n with
  | O => []
  | S n' => decode_record (firstn 16 buf) :: decode_records n' (skipn 16 buf)
  end.

Definition decode (buf : list byte)
  : list (spec_float * spec_float * spec_float * Z) :=
  decode_records (List.length buf / 16) buf.

(** A stored point as the wire carries it: coordinates rounded to float32,
    the label as it is. *)
Definition wire_point (p : Point) : spec_float * spec_float * spec_float * Z :=
  (F32.of_double (px p), F32.of_double (py p), F32.of_double (pz p), label p).

(** The 16 bytes of one record. *)
Definition record_bytes (p : Point) : list byte :=
  le_split 4 (F32.to_bits (F32.of_double (px p)))
  ++ le_split 4 (F32.to_bits (F32.of_double (py p)))
  ++ le_split 4 (F32.to_bits (F32.of_double (pz p)))
  ++ le_split 4 (label p).

Definition uint32 (n : Z) : Prop := 0 <= n < 2 ^ 32.

(** ** The reducer as the specification words it *)




(** ** The gate and the publisher, observed *)

(** The test of line 54 as a function of the stamps' difference in
    nanoseconds. *)
Definition stale (skew_ns : Z) : bool :=
  F64.ltb lit_0_1 (F64.div (F64.of_int skew_ns) lit_1e9).

(** What a pass handed to the publisher, if anything. *)
Definition published (o : outcome) : option PointCloud2 :=
  match o with
  | Completed pub => pub
  | _ => None
  end.

(** The failures of [lookup_transform] that the callback catches. *)
Definition lookup_failures : list exn :=
  [LookupException; ConnectivityException; ExtrapolationException].

(** ** Notions used by the further properties *)

(** [subseq l1 l2]: [l1] is [l2] with some elements left out, the others in
    their order. *)
Inductive subseq {A : Type} : list A -> list A -> Prop :=
| subseq_nil : subseq [] []
| subseq_skip (x : A) (l1 l2 : list A) : subseq l1 l2 -> subseq l1 (x :: l2)
| subseq_keep (x : A) (l1 l2 : list A) : subseq l1 l2 -> subseq (x :: l1) (x :: l2).

(** The same point under another label. *)
Definition relabel (f : Z -> Z) (p : Point) : Point :=
  mkPoint (coords p) (f (label p)).

Definition result_map {A B : Type} (f : A -> B) (r : result A) : result B :=
  match r with
  | Ok a => Ok (f a)
  | Raise e => Raise e
  end.

(** A stored point [q] comes from the batch point [p]: its coordinates are
    what [transform_point] answered for [p] and its label is [p]'s. *)
Definition stored_from
  (do_transform_point : TransformStamped -> Coords -> option Coords)
  (transform : TransformStamped) (p q : Point) : Prop :=
  transform_point do_transform_point p transform = Some (coords q)
  /\ label q = label p.

(** A message with its points replaced. *)
Definition with_points (msg : PointCloud2In) (points : list Point)
  : PointCloud2In :=
  mkCloudIn (in_stamp msg) (in_frame_id msg) points.

(** A label that ['I'] cannot pack. *)
Definition bad_label (p : Point) : Prop := ~ uint32 (label p).

(** A point in range whose label fits the wire. *)
Definition well_formed (p : Point) : Prop :=
  point_in_range p = true /\ uint32 (label p).

(** ** Concrete inputs *)

Definition pt (vx vy vz : float) (l : Z) : Point := mkPoint (mkCoords vx vy vz) l.

Definition f_0 : float := S754_zero false.
Definition f_1 : float := Eval vm_compute in Prim2SF 1.
Definition f_2 : float := Eval vm_compute in Prim2SF 2.
Definition f_3 : float := Eval vm_compute in Prim2SF 3.
Definition f_5 : float := Eval vm_compute in Prim2SF 5.
Definition f_0_001 : float := Eval vm_compute in Prim2SF 0.001.

(** The batch of the specification's scenario. *)
Definition scenario_batch : list Point :=
  [pt f_0 f_0 f_0 1; pt f_0 f_0 f_0_001 1; pt f_5 f_5 f_5 2].



(** The identity transform, stamped [stamp]. *)
Definition identity_transform (stamp : Time) : TransformStamped :=
  mkTransform stamp "map" (mkCoords f_0 f_0 f_0) (f_0, f_0, f_0, f_1).

(** [do_transform_point] on transforms whose rotation is the identity: the
    translation is added to the point. *)
Definition translate (t : TransformStamped) (p : Coords) : option Coords :=
  Some (mkCoords (F64.add (px p) (px (translation t)))
                 (F64.add (py p) (py (translation t)))
                 (F64.add (pz p) (pz (translation t)))).

(** * Proofs *)

(** ** Lists *)

Lemma ForallOrdPairs_snoc {A : Type} (R : A -> A -> Prop) (l : list A) (a : A) :
  ForallOrdPairs R l -> Forall (fun b => R b a) l ->
  ForallOrdPairs R (l ++ [a]).
Proof.
  induction 1 as [|b l Hb Hl IH]; intros Ha; simpl.
  - constructor; [constructor | constructor].
  - inversion Ha as [|? ? Hba Hla]; subst.
    constructor; [|now apply IH].
    apply Forall_app; split; [exact Hb | now constructor].
Qed.

Lemma ForallOrdPairs_app_inv {A : Type} (R : A -> A -> Prop) (l1 l2 : list A) :
  ForallOrdPairs R (l1 ++ l2) ->
  ForallOrdPairs R l2 /\ (forall a b, In a l1 -> In b l2 -> R a b).
Proof.
  induction l1 as [|c l1 IH]; simpl; intros H.
  - split; [exact H | intros a b []].
  - inversion H as [|? ? Hc Hl]; subst.
    destruct (IH Hl) as [H2 H12]. split; [exact H2|].
    intros a b [->|Ha] Hb.
    + rewrite Forall_forall in Hc. apply Hc, in_or_app. now right.
    + now apply H12.
Qed.

Lemma ForallOrdPairs_app {A : Type} (R : A -> A -> Prop) (l1 l2 : list A) :
  ForallOrdPairs R l1 -> ForallOrdPairs R l2 ->
  (forall a b, In a l1 -> In b l2 -> R a b) ->
  ForallOrdPairs R (l1 ++ l2).
Proof.
  induction 1 as [|c l1 Hc Hl IH]; simpl; intros H2 H12; [exact H2|].
  constructor.
  - apply Forall_app; split; [exact Hc|].
    apply Forall_forall. intros b Hb. apply H12; [now left | exact Hb].
  - apply IH; [exact H2|]. intros a b Ha Hb. apply H12; [now right | exact Hb].
Qed.

Lemma sparse_nil thr : sparse thr [].
Proof. split; constructor. Qed.

Lemma sparse_snoc thr (l : list Point) (p : Point) :
  sparse thr l -> is_valid_point p = true ->
  Forall (fun q : Point => separated thr q p) l ->
  sparse thr (l ++ [p]).
Proof.
  intros [Hv Hs] Hp Hf. split.
  - apply Forall_app; split; [exact Hv | now constructor].
  - now apply ForallOrdPairs_snoc.
Qed.

(** ** Binary64 facts *)

Lemma is_valid_point_finite (p : Coords) :
  is_valid_point p = true <->
  finite (px p) = true /\ finite (py p) = true /\ finite (pz p) = true.
Proof.
  unfold is_valid_point, finite; simpl.
  destruct (F64.isnan (px p) || F64.isinf (px p)),
           (F64.isnan (py p) || F64.isinf (py p)),
           (F64.isnan (pz p) || F64.isinf (pz p)); simpl; intuition congruence.
Qed.

(** [v - v] is [+0.0] for every finite [v]. *)
Lemma sub_diag (v : float) : finite v = true -> F64.sub v v = S754_zero false.
Proof.
  destruct v as [[|]|s| |s m e]; simpl; try discriminate; try reflexivity; intros _.
  unfold F64.sub, SFsub; rewrite Z.min_id;
    unfold shl_align; rewrite !Z.sub_diag; reflexivity.
Qed.

(** The distance of a valid point to itself is computed as [+0.0]. *)
Lemma dist_diag (p : Coords) :
  is_valid_point p = true -> dist p p = Ok (S754_zero false).
Proof.
  intros Hv. apply is_valid_point_finite in Hv. destruct Hv as (Hx & Hy & Hz).
  unfold dist. rewrite !sub_diag by assumption. reflexivity.
Qed.

(** ** Rounding to a binary format

    What [SpecFloat]'s [binary_round_aux] returns, for any format of
    precision [prec] and maximal exponent [emax]: never NaN, the sign it was
    given, infinity only from a large exponent, and a mantissa and exponent in
    the format's canonical form when the input is precise enough. *)

Lemma digits2_pos_size (p : positive) : digits2_pos p = Pos.size p.
Proof. induction p; simpl; congruence. Qed.

Lemma Zdigits2_nonneg (m : Z) : 0 <= Zdigits2 m.
Proof. destruct m; simpl; lia. Qed.

Lemma Zdigits2_upper (m : Z) : 0 <= m -> m < 2 ^ Zdigits2 m.
Proof.
  destruct m as [|p|p]; simpl; intros H; [reflexivity| |lia].
  rewrite digits2_pos_size. pose proof (Pos.size_gt p) as Hp.
  apply Pos2Z.pos_lt_pos in Hp. now rewrite Pos2Z.inj_pow in Hp.
Qed.

Lemma Zdigits2_lower (m : Z) : 0 < m -> 2 ^ (Zdigits2 m - 1) <= m.
Proof.
  destruct m as [|p|p]; cbn [Zdigits2]; intros H; try lia.
  rewrite digits2_pos_size. pose proof (Pos.size_le p) as Hp.
  apply Pos2Z.pos_le_pos in Hp. rewrite Pos2Z.inj_pow in Hp.
  change (Z.pos p~0) with (2 * Z.pos p) in Hp.
  replace (Z.pos (Pos.size p)) with (Z.succ (Z.pos (Pos.size p) - 1)) in Hp by lia.
  rewrite Z.pow_succ_r in Hp by lia. lia.
Qed.

Lemma Zdigits2_le (m k : Z) : 0 <= k -> 0 <= m < 2 ^ k -> Zdigits2 m <= k.
Proof.
  intros Hk [H0 Hm]. destruct (Z.eq_dec m 0) as [->|Hne]; [exact Hk|].
  pose proof (Zdigits2_lower m ltac:(lia)) as Hl.
  pose proof (Zdigits2_nonneg m) as Hd.
  destruct (Z_lt_le_dec k (Zdigits2 m)) as [Hlt|]; [|assumption].
  assert (2 ^ k <= 2 ^ (Zdigits2 m - 1)) by (apply Z.pow_le_mono_r; lia). lia.
Qed.

Lemma Zdigits2_ge (m k : Z) : 2 ^ (k - 1) <= m -> k <= Zdigits2 m.
Proof.
  intros Hm. destruct (Z_lt_le_dec (k - 1) 0) as [Hneg|Hk].
  - pose proof (Zdigits2_nonneg m). lia.
  - assert (0 < 2 ^ (k - 1)) by (apply Z.pow_pos_nonneg; lia).
    pose proof (Zdigits2_upper m ltac:(lia)) as Hu.
    pose proof (Zdigits2_nonneg m) as Hd.
    destruct (Z_lt_le_dec (Zdigits2 m) k) as [Hlt|]; [|assumption].
    assert (2 ^ Zdigits2 m <= 2 ^ (k - 1)) by (apply Z.pow_le_mono_r; lia). lia.
Qed.

Lemma div_pow2_lt (m a n b : Z) :
  0 <= m < 2 ^ a -> 0 <= n -> 0 <= b -> a <= n + b -> m / 2 ^ n < 2 ^ b.
Proof.
  intros [H0 Hm] Hn Hb Hab.
  apply Z.div_lt_upper_bound; [apply Z.pow_pos_nonneg; lia|].
  rewrite <- Z.pow_add_r by lia.
  assert (2 ^ a <= 2 ^ (n + b)).
  { destruct (Z_lt_le_dec a 0) as [Ha|Ha].
    - rewrite (Z.pow_neg_r 2 a Ha). apply Z.pow_nonneg. lia.
    - apply Z.pow_le_mono_r; lia. }
  lia.
Qed.

Lemma div_pow2_ge (m a n : Z) :
  2 ^ a <= m -> 0 <= n <= a -> 2 ^ (a - n) <= m / 2 ^ n.
Proof.
  intros Hm Hn.
  apply Z.div_le_lower_bound; [apply Z.pow_pos_nonneg; lia|].
  rewrite <- Z.pow_add_r by lia. now replace (n + (a - n)) with a by lia.
Qed.

Lemma shr_1_m (r : shr_record) :
  0 <= shr_m r -> shr_m (shr_1 r) = shr_m r / 2.
Proof.
  destruct r as [[|[p|p|]|p] b s]; simpl; intros H; try reflexivity; try lia.
  - rewrite Pos2Z.inj_xI. apply (Z.div_unique _ _ _ 1); lia.
  - rewrite Pos2Z.inj_xO. apply (Z.div_unique _ _ _ 0); lia.
Qed.

Lemma div_pow2_div_pow2 (m a b : Z) :
  0 <= a -> 0 <= b -> m / 2 ^ a / 2 ^ b = m / 2 ^ (a + b).
Proof.
  intros Ha Hb. rewrite Z.pow_add_r by lia.
  assert (0 < 2 ^ a) by (apply Z.pow_pos_nonneg; lia).
  assert (0 < 2 ^ b) by (apply Z.pow_pos_nonneg; lia).
  apply Z.div_div; lia.
Qed.

Lemma div_pow2_nonneg (m a : Z) : 0 <= m -> 0 <= a -> 0 <= m / 2 ^ a.
Proof.
  intros Hm Ha. apply Z.div_pos; [lia | apply Z.pow_pos_nonneg; lia].
Qed.

Lemma shr_iter_m (p : positive) (r : shr_record) :
  0 <= shr_m r -> shr_m (iter_pos shr_1 p r) = shr_m r / 2 ^ Z.pos p.
Proof.
  revert r. induction p as [p IH|p IH|]; intros r Hr; cbn [iter_pos].
  - assert (H1 : 0 <= shr_m (shr_1 r)).
    { rewrite shr_1_m by lia. apply Z.div_pos; lia. }
    pose proof (IH _ H1) as E1.
    assert (H2 : 0 <= shr_m (iter_pos shr_1 p (shr_1 r))).
    { rewrite E1. apply div_pow2_nonneg; lia. }
    rewrite (IH _ H2), E1, shr_1_m by lia.
    change (shr_m r / 2) with (shr_m r / 2 ^ 1).
    rewrite !div_pow2_div_pow2 by lia. f_equal. f_equal.
    rewrite Pos2Z.inj_xI. lia.
  - pose proof (IH _ Hr) as E1.
    assert (H2 : 0 <= shr_m (iter_pos shr_1 p r)).
    { rewrite E1. apply div_pow2_nonneg; lia. }
    rewrite (IH _ H2), E1, div_pow2_div_pow2 by lia. f_equal. f_equal.
    rewrite Pos2Z.inj_xO. lia.
  - now rewrite shr_1_m.
Qed.

Lemma shr_record_of_loc_m (m : Z) (l : location) :
  shr_m (shr_record_of_loc m l) = m.
Proof. destruct l as [|[]]; reflexivity. Qed.

Lemma round_nearest_even_bounds (m : Z) (l : location) :
  m <= round_nearest_even m l <= m + 1.
Proof.
  destruct l as [|[]]; simpl; try lia. destruct (Z.even m); lia.
Qed.

Section Rounding.
Variables prec emax : Z.
Hypothesis Hprec : 0 < prec.
Hypothesis Hemax : 2 <= emax.

(** [shr_fexp] divides the mantissa by the power of two that brings the
    exponent up to the format's. *)
Lemma shr_fexp_spec (m e : Z) (l : location) :
  0 <= m ->
  let n := Z.max 0 (fexp prec emax (Zdigits2 m + e) - e) in
  exists r, shr_fexp prec emax m e l = (r, e + n) /\ shr_m r = m / 2 ^ n.
Proof.
  intros Hm n. subst n. unfold shr_fexp, shr.
  destruct (fexp prec emax (Zdigits2 m + e) - e) as [|p|p] eqn:Hn.
  - eexists; split; [rewrite Z.add_0_r; reflexivity|].
    now rewrite shr_record_of_loc_m, Z.div_1_r.
  - eexists; split; [rewrite Z.max_r by lia; reflexivity|].
    rewrite shr_iter_m by (rewrite shr_record_of_loc_m; lia).
    now rewrite shr_record_of_loc_m, Z.max_r by lia.
  - eexists; split; [rewrite Z.max_l by lia; rewrite Z.add_0_r; reflexivity|].
    now rewrite shr_record_of_loc_m, Z.max_l, Z.div_1_r by lia.
Qed.

(** [binary_round_aux] in closed form: one division, a rounding step that adds
    at most one, a second division. *)
Lemma binary_round_aux_eq (s : bool) (mx ex : Z) (lx : location) :
  0 <= mx ->
  let n1 := Z.max 0 (fexp prec emax (Zdigits2 mx + ex) - ex) in
  exists m1,
    mx / 2 ^ n1 <= m1 <= mx / 2 ^ n1 + 1 /\
    let e1 := ex + n1 in
    let n2 := Z.max 0 (fexp prec emax (Zdigits2 m1 + e1) - e1) in
    binary_round_aux prec emax s mx ex lx =
    match m1 / 2 ^ n2 with
    | Z0 => S754_zero s
    | Zpos m => if e1 + n2 <=? emax - prec then S754_finite s m (e1 + n2)
                else S754_infinity s
    | Zneg _ => S754_nan
    end.
Proof.
  intros Hmx n1. unfold binary_round_aux.
  destruct (shr_fexp_spec mx ex lx Hmx) as (r1 & -> & Hr1). fold n1 in Hr1 |- *.
  set (m1 := round_nearest_even (shr_m r1) (loc_of_shr_record r1)).
  pose proof (round_nearest_even_bounds (shr_m r1) (loc_of_shr_record r1)) as Hb.
  fold m1 in Hb. rewrite Hr1 in Hb.
  assert (H0 : 0 <= mx / 2 ^ n1) by (apply div_pow2_nonneg; lia).
  exists m1. split; [exact Hb|].
  destruct (shr_fexp_spec m1 (ex + n1) loc_Exact ltac:(lia)) as (r2 & -> & ->).
  reflexivity.
Qed.

(** The shape of every result of [binary_round_aux]. *)
Lemma binary_round_aux_spec (s : bool) (mx ex : Z) (lx : location) :
  0 <= mx ->
  let d := Zdigits2 mx + ex in
  match binary_round_aux prec emax s mx ex lx with
  | S754_zero s' => s' = s
  | S754_infinity s' =>
      s' = s /\ emax - prec < Z.max ex (fexp prec emax d) + 1
  | S754_nan => False
  | S754_finite s' m e =>
      s' = s /\ e <= emax - prec
      /\ Z.pos (digits2_pos m) + e <= Z.max d (SpecFloat.emin prec emax) + 1
      /\ (ex <= fexp prec emax d -> canonical_mantissa prec emax m e = true)
  end.
Proof.
  intros Hmx d.
  destruct (binary_round_aux_eq s mx ex lx Hmx) as (m1 & Hm1 & ->).
  fold d in Hm1 |- *.
  remember (Z.max 0 (fexp prec emax d - ex)) as n1 eqn:En1.
  remember (ex + n1) as e1 eqn:Ee1.
  remember (Z.max 0 (fexp prec emax (Zdigits2 m1 + e1) - e1)) as n2 eqn:En2.
  assert (Ed : d = Zdigits2 mx + ex) by reflexivity. clearbody d.
  unfold fexp, SpecFloat.emin in *. zfold.
  pose proof (Zdigits2_nonneg mx) as Hdx.
  pose proof (Zdigits2_upper mx Hmx) as Hux.
  assert (H0 : 0 <= mx / 2 ^ n1) by (apply div_pow2_nonneg; lia).
  (* the first division leaves at most [prec] digits *)
  assert (Hlt : mx / 2 ^ n1 < 2 ^ prec).
  { apply (div_pow2_lt _ (Zdigits2 mx)); lia. }
  assert (Hm1p : 0 <= m1 <= 2 ^ prec) by lia.
  assert (Hd1 : Zdigits2 m1 <= prec + 1).
  { apply Zdigits2_le; [lia|]. rewrite Z.add_1_r, Z.pow_succ_r by lia. lia. }
  pose proof (Zdigits2_nonneg m1) as Hd1'.
  assert (Hn2 : n2 = 0 \/ n2 = 1) by lia.
  assert (Hm2 : 0 <= m1 / 2 ^ n2) by (apply div_pow2_nonneg; lia).
  (* digits of the final mantissa *)
  remember (Z.max d (3 - emax - prec) - e1) as K eqn:EK.
  assert (HK : 0 <= K) by lia.
  assert (Hlt' : mx / 2 ^ n1 < 2 ^ K).
  { apply (div_pow2_lt _ (Zdigits2 mx)); lia. }
  destruct (m1 / 2 ^ n2) as [|m|m] eqn:Em2; [reflexivity| |lia].
  assert (Hdm : Z.pos (digits2_pos m) + n2 <= Zdigits2 m1).
  { change (Z.pos (digits2_pos m)) with (Zdigits2 (Z.pos m)). rewrite <- Em2.
    assert (Hpos1 : 0 < m1).
    { destruct (Z.eq_dec m1 0) as [E|]; [|lia].
      rewrite E, Z.div_0_l in Em2; [discriminate|].
      apply Z.pow_nonzero; lia. }
    pose proof (Zdigits2_lower m1 Hpos1). pose proof (Zdigits2_upper m1 ltac:(lia)).
    assert (0 < Zdigits2 m1).
    { destruct (Z.eq_dec (Zdigits2 m1) 0) as [E|]; [|lia].
      rewrite E in *. change (2 ^ 0) with 1 in *. lia. }
    enough (Zdigits2 (m1 / 2 ^ n2) <= Zdigits2 m1 - n2) by lia.
    apply Zdigits2_le; [lia|]. split; [rewrite Em2; lia|].
    apply (div_pow2_lt _ (Zdigits2 m1)); lia. }
  assert (Hd1K : Zdigits2 m1 <= K + 1).
  { apply Zdigits2_le; [lia|]. rewrite Z.add_1_r, Z.pow_succ_r by lia. lia. }
  destruct (e1 + n2 <=? emax - prec) eqn:Ele.
  - apply Z.leb_le in Ele. split; [reflexivity|]. split; [exact Ele|].
    split; [lia|].
    intros Hex. unfold canonical_mantissa, fexp, SpecFloat.emin in *. zfold.
    apply Z.eqb_eq.
    change (Z.pos (digits2_pos m)) with (Zdigits2 (Z.pos m)). rewrite <- Em2.
    destruct Hn2 as [E0|E1].
    + (* no second shift: the mantissa already has the right length *)
      rewrite E0, Z.div_1_r, Z.add_0_r.
      destruct (Z_le_gt_dec (d - prec) (3 - emax - prec)) as [Hsub|Hnorm]; [lia|].
      assert (Hn1 : n1 = Zdigits2 mx - prec) by lia.
      assert (Hpos : 0 < mx).
      { destruct (Z.eq_dec mx 0) as [E|]; [|lia]. rewrite E in *. simpl in *. lia. }
      pose proof (Zdigits2_lower mx Hpos) as Hlow.
      assert (2 ^ (prec - 1) <= mx / 2 ^ n1).
      { replace (prec - 1) with (Zdigits2 mx - 1 - n1) by lia.
        apply div_pow2_ge; [exact Hlow | lia]. }
      assert (prec <= Zdigits2 m1) by (apply Zdigits2_ge; lia).
      lia.
    + (* the rounding carried into a new digit: one more shift *)
      rewrite E1.
      assert (Hdig : Zdigits2 m1 = prec + 1) by lia.
      assert (Hpos1 : 0 < m1).
      { destruct (Z.eq_dec m1 0) as [E|]; [|lia]. rewrite E in Hdig. simpl in Hdig. lia. }
      pose proof (Zdigits2_lower m1 Hpos1) as Hlow. rewrite Hdig in Hlow.
      replace (prec + 1 - 1) with prec in Hlow by lia.
      assert (Em1 : m1 = 2 ^ prec) by lia.
      assert (Ehalf : m1 / 2 ^ 1 = 2 ^ (prec - 1)).
      { rewrite Em1. change (2 ^ 1) with 2.
        replace prec with (Z.succ (prec - 1)) at 1 by lia.
        rewrite Z.pow_succ_r by lia. rewrite Z.mul_comm. apply Z.div_mul. lia. }
      rewrite Ehalf.
      assert (Zdigits2 (2 ^ (prec - 1)) = prec).
      { apply Z.le_antisymm.
        - apply Zdigits2_le; [lia|]. split; [apply Z.pow_nonneg; lia|].
          apply Z.pow_lt_mono_r; lia.
        - apply Zdigits2_ge. lia. }
      lia.
  - apply Z.leb_gt in Ele. split; [reflexivity|]. lia.
Qed.

End Rounding.

Lemma digits2_pos_iter_xO (m d : positive) :
  Z.pos (digits2_pos (Pos.iter xO m d)) = Z.pos (digits2_pos m) + Z.pos d.
Proof.
  induction d as [|d IH] using Pos.peano_ind.
  - simpl. lia.
  - rewrite Pos.iter_succ. simpl digits2_pos. lia.
Qed.

Section RoundingFormat.
Variables prec emax : Z.
Hypothesis Hprec : 0 < prec.
Hypothesis Hemax : 2 <= emax.

(** [binary_round] first aligns its input, so its result is always a
    well-formed datum of the format. *)
Lemma binary_round_spec (s : bool) (m : positive) (e : Z) :
  let d := Z.pos (digits2_pos m) + e in
  match binary_round prec emax s m e with
  | S754_zero s' => s' = s
  | S754_infinity s' => s' = s /\ emax - prec < fexp prec emax d + 1
  | S754_nan => False
  | S754_finite s' m' e' =>
      s' = s /\ bounded prec emax m' e' = true
      /\ Z.pos (digits2_pos m') + e' <= Z.max d (SpecFloat.emin prec emax) + 1
  end.
Proof.
  intros d. unfold binary_round, shl_align. fold d.
  destruct (fexp prec emax d - e) as [|p|p] eqn:Hn.
  - pose proof (binary_round_aux_spec prec emax Hprec Hemax s (Z.pos m) e loc_Exact
                  ltac:(lia)) as H.
    cbn [Zdigits2] in H. fold d in H.
    destruct (binary_round_aux prec emax s (Z.pos m) e loc_Exact) as [s'|s'| |s' m' e'];
      try exact H.
    + destruct H as [Hs Ho]. split; [exact Hs|]. lia.
    + destruct H as (Hs & He & Hd & Hc). split; [exact Hs|]. split; [|exact Hd].
      unfold bounded. rewrite Hc by lia. now apply Z.leb_le.
  - pose proof (binary_round_aux_spec prec emax Hprec Hemax s (Z.pos m) e loc_Exact
                  ltac:(lia)) as H.
    cbn [Zdigits2] in H. fold d in H.
    destruct (binary_round_aux prec emax s (Z.pos m) e loc_Exact) as [s'|s'| |s' m' e'];
      try exact H.
    + destruct H as [Hs Ho]. split; [exact Hs|]. lia.
    + destruct H as (Hs & He & Hd & Hc). split; [exact Hs|]. split; [|exact Hd].
      unfold bounded. rewrite Hc by lia. now apply Z.leb_le.
  - pose proof (binary_round_aux_spec prec emax Hprec Hemax s
                  (Z.pos (Pos.iter xO m p)) (fexp prec emax d) loc_Exact
                  ltac:(lia)) as H.
    cbn [Zdigits2] in H. rewrite digits2_pos_iter_xO in H.
    replace (Z.pos (digits2_pos m) + Z.pos p + fexp prec emax d) with d in H by lia.
    destruct (binary_round_aux prec emax s _ (fexp prec emax d) loc_Exact)
      as [s'|s'| |s' m' e']; try exact H.
    + destruct H as [Hs Ho]. split; [exact Hs|]. lia.
    + destruct H as (Hs & He & Hd & Hc). split; [exact Hs|]. split; [|exact Hd].
      unfold bounded. rewrite Hc by lia. now apply Z.leb_le.
Qed.

Lemma binary_round_valid (s : bool) (m : positive) (e : Z) :
  valid_binary prec emax (binary_round prec emax s m e) = true
  /\ binary_round prec emax s m e <> S754_nan.
Proof.
  pose proof (binary_round_spec s m e) as H.
  destruct (binary_round prec emax s m e) as [s'|s'| |s' m' e']; simpl.
  - split; [reflexivity | discriminate].
  - split; [reflexivity | discriminate].
  - destruct H.
  - split; [apply H | discriminate].
Qed.

Lemma binary_normalize_valid (m e : Z) (s : bool) :
  valid_binary prec emax (binary_normalize prec emax m e s) = true
  /\ binary_normalize prec emax m e s <> S754_nan.
Proof.
  destruct m as [|p|p]; simpl.
  - split; [reflexivity | discriminate].
  - apply binary_round_valid.
  - apply binary_round_valid.
Qed.

End RoundingFormat.

(** ** The binary32 encoding *)

(** The fields of an encoded word. *)
Lemma f32_fields (s : bool) (E F : Z) :
  0 <= E < 2 ^ 8 -> 0 <= F < 2 ^ 23 ->
  let w := F32.sign_bit s + E * 2 ^ 23 + F in
  Z.testbit w 31 = s /\ (w / 2 ^ 23) mod 2 ^ 8 = E /\ w mod 2 ^ 23 = F
  /\ 0 <= w < 2 ^ 32.
Proof.
  intros HE HF w. subst w. unfold F32.sign_bit.
  change (2 ^ 8) with 256 in *. change (2 ^ 23) with 8388608 in *.
  change (2 ^ 31) with 2147483648. change (2 ^ 32) with 4294967296.
  set (b := if s then 1 else 0).
  assert (Hb : (if s then 2147483648 else 0) = b * 2147483648) by (now destruct s).
  assert (Hb01 : 0 <= b <= 1) by (destruct s; subst b; lia).
  rewrite Hb.
  assert (Hdiv : (b * 2147483648 + E * 8388608 + F) / 8388608 = b * 256 + E).
  { symmetry. apply (Z.div_unique _ _ _ F); lia. }
  assert (Hmod : (b * 2147483648 + E * 8388608 + F) mod 8388608 = F).
  { symmetry. apply (Z.mod_unique _ _ (b * 256 + E)); lia. }
  assert (Hhi : (b * 2147483648 + E * 8388608 + F) / 2 ^ 31 = b).
  { change (2 ^ 31) with 2147483648. symmetry.
    apply (Z.div_unique _ _ _ (E * 8388608 + F)); lia. }
  split; [|split; [|split; [exact Hmod | lia]]].
  - destruct s; subst b.
    + apply Z.testbit_true; [lia|]. now rewrite Hhi.
    + apply Z.testbit_false; [lia|]. now rewrite Hhi.
  - rewrite Hdiv. symmetry. apply (Z.mod_unique _ _ b); lia.
Qed.

(** What well-formedness says of a binary32 mantissa and exponent: either a
    subnormal, or a 24-bit mantissa with an exponent in range. *)
Lemma f32_bounded (m : positive) (e : Z) :
  bounded F32.prec F32.emax m e = true ->
  (Z.pos m < 2 ^ 23 /\ e = -149)
  \/ (2 ^ 23 <= Z.pos m < 2 ^ 24 /\ -149 <= e <= 104).
Proof.
  unfold bounded, canonical_mantissa, fexp, SpecFloat.emin, F32.prec, F32.emax.
  intros H. apply andb_prop in H. destruct H as [Hc He].
  apply Z.eqb_eq in Hc. apply Z.leb_le in He. zfold.
  change (Z.pos (digits2_pos m)) with (Zdigits2 (Z.pos m)) in Hc.
  pose proof (Zdigits2_upper (Z.pos m) ltac:(lia)) as Hu.
  pose proof (Zdigits2_lower (Z.pos m) ltac:(lia)) as Hl.
  destruct (Z_lt_le_dec (Z.pos m) (2 ^ 23)) as [Hsub|Hnorm].
  - left. split; [exact Hsub|].
    assert (Zdigits2 (Z.pos m) <= 23) by (apply Zdigits2_le; lia). lia.
  - right.
    assert (24 <= Zdigits2 (Z.pos m)) by (apply Zdigits2_ge; exact Hnorm).
    assert (Hd : Zdigits2 (Z.pos m) = 24) by lia.
    rewrite Hd in Hu. lia.
Qed.

(** Decoding an encoded binary32 datum gives the datum back. *)
Lemma f32_of_bits_to_bits (v : spec_float) :
  valid_binary F32.prec F32.emax v = true ->
  F32.of_bits (F32.to_bits v) = v /\ 0 <= F32.to_bits v < 2 ^ 32.
Proof.
  destruct v as [[|]|[|]| |s m e]; simpl valid_binary; intros Hv;
    try (split; [reflexivity | unfold F32.to_bits, F32.sign_bit; lia]).
  destruct (f32_bounded m e Hv) as [[Hm He]|[Hm He]]; unfold F32.to_bits.
  - assert (Hlt : (Z.pos m <? 2 ^ 23) = true) by (apply Z.ltb_lt; lia). rewrite Hlt.
    destruct (f32_fields s 0 (Z.pos m) ltac:(lia) ltac:(lia)) as (Hs & Hex & Hfr & Hw).
    rewrite Z.mul_0_l, Z.add_0_r in *.
    split; [|exact Hw]. unfold F32.of_bits. rewrite Hs, Hex, Hfr. simpl.
    now rewrite He.
  - assert (Hlt : (Z.pos m <? 2 ^ 23) = false) by (apply Z.ltb_ge; lia). rewrite Hlt.
    change (2 ^ 24) with (2 * 2 ^ 23) in Hm.
    destruct (f32_fields s (e + 150) (Z.pos m - 2 ^ 23)
                ltac:(change (2 ^ 8) with 256; lia) ltac:(lia))
      as (Hs & Hex & Hfr & Hw).
    split; [|exact Hw]. unfold F32.of_bits. rewrite Hs, Hex, Hfr.
    assert (E0 : (e + 150 =? 0) = false) by (apply Z.eqb_neq; lia).
    assert (E255 : (e + 150 =? 255) = false) by (apply Z.eqb_neq; lia).
    rewrite E0, E255.
    replace (Z.pos m - 2 ^ 23 + 2 ^ 23) with (Z.pos m) by lia.
    f_equal. lia.
Qed.

(** The conversion to float32 always yields a well-formed binary32 datum. *)
Lemma f32_of_double_valid (v : float) :
  valid_binary F32.prec F32.emax (F32.of_double v) = true.
Proof.
  destruct v as [s|s| |s m e]; try reflexivity.
  unfold F32.of_double.
  apply (binary_normalize_valid F32.prec F32.emax); unfold F32.prec, F32.emax; lia.
Qed.

(** ** The wire format *)

Lemma le_combine_split_4 (w : Z) :
  0 <= w < 2 ^ 32 -> le_combine (le_split 4 w) = w.
Proof.
  intros Hw. rewrite le_combine_split. apply Z.mod_small.
  change (2 ^ (Z.of_nat 4 * 8)) with (2 ^ 32). exact Hw.
Qed.

Lemma field_at (offset : nat) (pre post : list byte) (w : Z) :
  List.length pre = offset ->
  field offset (pre ++ le_split 4 w ++ post) = le_combine (le_split 4 w).
Proof.
  intros Hlen. unfold field.
  rewrite skipn_app, <- Hlen, skipn_all, Nat.sub_diag.
  change (skipn 0 (le_split 4 w ++ post)) with (le_split 4 w ++ post).
  rewrite app_nil_l, firstn_app, length_le_split, Nat.sub_diag, firstn_O, app_nil_r.
  now rewrite firstn_all2 by (rewrite length_le_split; lia).
Qed.

Lemma field_f32 (offset : nat) (pre post : list byte) (v : float) :
  List.length pre = offset ->
  F32.of_bits (field offset (pre ++ pack_f v ++ post)) = F32.of_double v.
Proof.
  intros Hlen. unfold pack_f. rewrite field_at by exact Hlen.
  destruct (f32_of_bits_to_bits _ (f32_of_double_valid v)) as [Hrt Hw].
  now rewrite le_combine_split_4.
Qed.

Lemma field_u32 (offset : nat) (pre post : list byte) (n : Z) :
  List.length pre = offset -> uint32 n ->
  field offset (pre ++ le_split 4 n ++ post) = n.
Proof.
  intros Hlen Hn. rewrite field_at by exact Hlen. now apply le_combine_split_4.
Qed.

Lemma length_record_bytes (p : Point) : List.length (record_bytes p) = 16%nat.
Proof. unfold record_bytes. now rewrite !length_app, !length_le_split. Qed.

Lemma decode_record_bytes (p : Point) :
  uint32 (label p) -> decode_record (record_bytes p) = wire_point p.
Proof.
  intros Hl. unfold decode_record, wire_point, record_bytes.
  set (bx := F32.to_bits (F32.of_double (px p))).
  set (by_ := F32.to_bits (F32.of_double (py p))).
  set (bz := F32.to_bits (F32.of_double (pz p))).
  f_equal; [f_equal; [f_equal|]|].
  - apply (field_f32 0 [] _ (px p)). reflexivity.
  - apply (field_f32 4 (le_split 4 bx) _ (py p)). apply length_le_split.
  - rewrite app_assoc. apply (field_f32 8 (le_split 4 bx ++ le_split 4 by_) _ (pz p)).
    now rewrite length_app, !length_le_split.
  - rewrite <- (app_nil_r (le_split 4 (label p))), !app_assoc, <- app_assoc.
    apply field_u32; [|exact Hl].
    now rewrite !length_app, !length_le_split.
Qed.

Lemma pack_fffI_ok (p : Point) :
  uint32 (label p) -> pack_fffI p = Ok (record_bytes p).
Proof.
  intros [H0 H1]. unfold pack_fffI, pack_I.
  apply Z.leb_le in H0. apply Z.ltb_lt in H1. now rewrite H0, H1.
Qed.

Lemma cloud_data_ok (acc : list Point) :
  Forall (fun p => uint32 (label p)) acc ->
  cloud_data acc = Ok (flat_map record_bytes acc).
Proof.
  induction 1 as [|p acc Hp _ IH]; simpl; [reflexivity|].
  now rewrite (pack_fffI_ok p Hp), IH.
Qed.

Lemma length_flat_map_record_bytes (acc : list Point) :
  List.length (flat_map record_bytes acc) = (List.length acc * 16)%nat.
Proof.
  induction acc as [|p acc IH]; cbn [flat_map List.length]; [reflexivity|].
  rewrite length_app, length_record_bytes, IH. lia.
Qed.

Lemma decode_records_flat_map (acc : list Point) :
  Forall (fun p => uint32 (label p)) acc ->
  decode_records (List.length acc) (flat_map record_bytes acc)
  = map wire_point acc.
Proof.
  induction 1 as [|p acc Hp _ IH];
    cbn [flat_map List.length decode_records map]; [reflexivity|].
  rewrite firstn_app, length_record_bytes, Nat.sub_diag, firstn_O, app_nil_r.
  rewrite firstn_all2 by (rewrite length_record_bytes; lia).
  rewrite skipn_app, length_record_bytes, Nat.sub_diag.
  rewrite skipn_all2 by (rewrite length_record_bytes; lia).
  cbn [app skipn].
  now rewrite (decode_record_bytes p Hp), IH.
Qed.

Lemma decode_flat_map (acc : list Point) :
  Forall (fun p => uint32 (label p)) acc ->
  decode (flat_map record_bytes acc) = map wire_point acc.
Proof.
  intros H. unfold decode.
  rewrite length_flat_map_record_bytes, Nat.div_mul by lia.
  now apply decode_records_flat_map.
Qed.

(** ** The distance expression stays in range *)

Lemma below_of_in_range (v : float) :
  finite v = true -> in_range v = true -> below 500 v.
Proof.
  destruct v as [s|s| |s m e]; simpl; try discriminate; intros _ H; [exact I|].
  apply andb_prop in H. destruct H as [Hb Hd]. apply Z.leb_le in Hd. now split.
Qed.

Lemma shl_align_digits (mx : positive) (ex ez : Z) :
  ez <= ex ->
  Z.pos (digits2_pos (fst (shl_align mx ex ez))) + ez
  = Z.pos (digits2_pos mx) + ex.
Proof.
  intros H. unfold shl_align. destruct (ez - ex) as [|p|p] eqn:E; simpl fst.
  - lia.
  - lia.
  - rewrite digits2_pos_iter_xO. lia.
Qed.

Lemma pos_lt_pow2_digits (m : positive) : Z.pos m < 2 ^ Z.pos (digits2_pos m).
Proof. apply (Zdigits2_upper (Z.pos m)). lia. Qed.

(** The difference of two numbers below [2 ^ k] is below [2 ^ (k + 2)]. *)
Lemma sub_below (k : Z) (a b : float) :
  0 <= k <= 900 -> below k a -> below k b -> below (k + 2) (F64.sub a b).
Proof.
  intros Hk Ha Hb.
  destruct a as [sa|sa| |sa ma ea]; try destruct Ha;
  destruct b as [sb|sb| |sb mb eb]; try destruct Hb.
  - destruct sa, sb; exact I.
  - unfold F64.sub; cbn [SFsub below]. split; [assumption | lia].
  - unfold F64.sub; cbn [SFsub below]. split; [assumption | lia].
  - rename H into Hba, H0 into Hda, H1 into Hbb, H2 into Hdb.
    unfold F64.sub, SFsub.
    set (ez := Z.min ea eb).
    pose proof (shl_align_digits ma ea ez ltac:(lia)) as Ea.
    pose proof (shl_align_digits mb eb ez ltac:(lia)) as Eb.
    pose proof (pos_lt_pow2_digits (fst (shl_align ma ea ez))) as Ua.
    pose proof (pos_lt_pow2_digits (fst (shl_align mb eb ez))) as Ub.
    set (xa := fst (shl_align ma ea ez)) in *.
    set (xb := fst (shl_align mb eb ez)) in *.
    assert (Hpa : Z.pos xa < 2 ^ (k - ez)).
    { eapply Z.lt_le_trans; [exact Ua|]. apply Z.pow_le_mono_r; lia. }
    assert (Hpb : Z.pos xb < 2 ^ (k - ez)).
    { eapply Z.lt_le_trans; [exact Ub|]. apply Z.pow_le_mono_r; lia. }
    set (delta := cond_Zopp sa (Z.pos xa) - cond_Zopp sb (Z.pos xb)).
    assert (Hdelta : Z.abs delta < 2 ^ (k - ez + 1)).
    { rewrite Z.add_1_r, Z.pow_succ_r by lia.
      subst delta. destruct sa, sb; simpl cond_Zopp; lia. }
    assert (Hdig : forall p, Z.abs delta = Z.pos p ->
                     Z.pos (digits2_pos p) + ez <= k + 1).
    { intros p Hp. rewrite Hp in Hdelta.
      enough (Zdigits2 (Z.pos p) <= k - ez + 1) by (cbn [Zdigits2] in *; lia).
      apply Zdigits2_le; lia. }
    assert (Hround : forall s p, Z.abs delta = Z.pos p ->
                       below (k + 2) (binary_round F64.prec F64.emax s p ez)).
    { intros s p Hp. specialize (Hdig p Hp).
      pose proof (binary_round_spec F64.prec F64.emax ltac:(reflexivity)
                    ltac:(unfold F64.emax; lia) s p ez) as H.
      destruct (binary_round F64.prec F64.emax s p ez) as [s'|s'| |s' m' e'];
        cbn [below].
      - exact I.
      - unfold fexp, SpecFloat.emin, F64.prec, F64.emax in H. zfold. lia.
      - exact H.
      - unfold SpecFloat.emin, F64.prec, F64.emax in H. zfold.
        split; [apply H | lia]. }
    unfold binary_normalize. fold delta.
    destruct delta as [|p|p] eqn:Ed.
    + exact I.
    + apply Hround. reflexivity.
    + apply Hround. reflexivity.
Qed.

(** Squaring a number below [2 ^ 502] does not overflow. *)
Lemma pow2_below (k : Z) (v : float) :
  0 <= k <= 502 -> below k v -> exists r, F64.pow2 v = Ok r /\ nonneg r.
Proof.
  intros Hk Hv. destruct v as [s|s| |s m e]; cbn [below] in Hv;
    try contradiction.
  - exists (S754_zero false). now destruct s.
  - destruct Hv as [Hb Hd].
    unfold F64.pow2, F64.mul. cbn [SFmul]. rewrite xorb_nilpotent.
    pose proof (binary_round_aux_spec F64.prec F64.emax ltac:(reflexivity)
                  ltac:(unfold F64.emax; lia) false (Z.pos (m * m)) (e + e)
                  loc_Exact ltac:(lia)) as H.
    assert (Hdig : Zdigits2 (Z.pos (m * m)) <= 2 * Z.pos (digits2_pos m)).
    { apply Zdigits2_le; [lia|]. split; [lia|].
      pose proof (pos_lt_pow2_digits m) as Hm.
      replace (2 * Z.pos (digits2_pos m))
        with (Z.pos (digits2_pos m) + Z.pos (digits2_pos m)) by lia.
      rewrite Z.pow_add_r, Pos2Z.inj_mul by lia. nia. }
    unfold bounded, canonical_mantissa in Hb. apply andb_prop in Hb.
    destruct Hb as [Hc He]. apply Z.eqb_eq in Hc.
    unfold fexp, SpecFloat.emin, F64.prec, F64.emax in *. zfold.
    destruct (binary_round_aux 53 1024 false (Z.pos (m * m)) (e + e) loc_Exact)
      as [s'|s'| |s' m' e'] eqn:Er; cbn [F64.isinf].
    + eexists; split; [reflexivity|]. now subst s'.
    + destruct H as [_ H]. lia.
    + destruct H.
    + eexists; split; [reflexivity|]. destruct H as [-> _]. exact I.
Qed.

Lemma add_nonneg (a b : float) : nonneg a -> nonneg b -> nonneg (F64.add a b).
Proof.
  intros Ha Hb.
  destruct a as [[|]|[|]| |[|] ma ea]; try destruct Ha;
  destruct b as [[|]|[|]| |[|] mb eb]; try destruct Hb; try exact I.
  unfold F64.add, SFadd. cbn [cond_Zopp]. rewrite <- Pos2Z.inj_add.
  cbn [binary_normalize].
  pose proof (binary_round_spec F64.prec F64.emax ltac:(reflexivity)
                ltac:(unfold F64.emax; lia) false
                (fst (shl_align ma ea (Z.min ea eb))
                 + fst (shl_align mb eb (Z.min ea eb))) (Z.min ea eb)) as H.
  cbv zeta in H.
  destruct (binary_round F64.prec F64.emax false _ (Z.min ea eb))
    as [s'|s'| |s' m' e']; cbn [nonneg].
  - now subst s'.
  - destruct H as [-> _]. exact I.
  - exact H.
  - destruct H as [-> _]. exact I.
Qed.

Lemma sqrt_nonneg (v : float) : nonneg v -> exists r, F64.sqrt v = Ok r.
Proof.
  destruct v as [[|]|[|]| |[|] m e]; intros H; try destruct H;
    eexists; reflexivity.
Qed.

(** Between valid points in range the distance expression raises nothing. *)
Lemma dist_in_range (p q : Coords) :
  is_valid_point p = true -> is_valid_point q = true ->
  point_in_range p = true -> point_in_range q = true ->
  exists d, dist p q = Ok d.
Proof.
  intros Hp Hq Rp Rq.
  apply is_valid_point_finite in Hp. destruct Hp as (Hpx & Hpy & Hpz).
  apply is_valid_point_finite in Hq. destruct Hq as (Hqx & Hqy & Hqz).
  unfold point_in_range in Rp, Rq.
  apply andb_prop in Rp. destruct Rp as [Rp Rpz].
  apply andb_prop in Rp. destruct Rp as [Rpx Rpy].
  apply andb_prop in Rq. destruct Rq as [Rq Rqz].
  apply andb_prop in Rq. destruct Rq as [Rqx Rqy].
  assert (Hsq : forall a b, finite a = true -> finite b = true ->
                  in_range a = true -> in_range b = true ->
                  exists r, F64.pow2 (F64.sub a b) = Ok r /\ nonneg r).
  { intros a b Fa Fb Ra Rb. apply (pow2_below 502); [lia|].
    apply (sub_below 500); [lia | |]; now apply below_of_in_range. }
  destruct (Hsq _ _ Hpx Hqx Rpx Rqx) as (dx2 & Ex & Nx).
  destruct (Hsq _ _ Hpy Hqy Rpy Rqy) as (dy2 & Ey & Ny).
  destruct (Hsq _ _ Hpz Hqz Rpz Rqz) as (dz2 & Ez & Nz).
  unfold dist. rewrite Ex, Ey, Ez. cbn [bind].
  apply sqrt_nonneg. apply add_nonneg; [apply add_nonneg|]; assumption.
Qed.

(** ** The distance is a number *)

(** The difference of two finite numbers is a number. *)
Lemma sub_not_nan (a b : float) :
  finite a = true -> finite b = true -> F64.sub a b <> S754_nan.
Proof.
  intros Ha Hb.
  destruct a as [sa|sa| |sa ma ea]; try discriminate Ha;
  destruct b as [sb|sb| |sb mb eb]; try discriminate Hb;
    unfold F64.sub; cbn [SFsub].
  - destruct sa, sb; discriminate.
  - discriminate.
  - discriminate.
  - apply (binary_normalize_valid F64.prec F64.emax);
      unfold F64.prec, F64.emax; lia.
Qed.

(** A square that [**] returns is non-negative. *)
Lemma pow2_nonneg (v r : float) :
  v <> S754_nan -> F64.pow2 v = Ok r -> nonneg r.
Proof.
  intros Hv. unfold F64.pow2.
  destruct v as [s|s| |s m e]; try congruence.
  - destruct s; intros H; inversion H; exact I.
  - intros H; inversion H; exact I.
  - unfold F64.mul. cbn [SFmul]. rewrite xorb_nilpotent.
    pose proof (binary_round_aux_spec F64.prec F64.emax ltac:(reflexivity)
                  ltac:(unfold F64.emax; lia) false (Z.pos (m * m)) (e + e)
                  loc_Exact ltac:(lia)) as H.
    cbv zeta in H.
    destruct (binary_round_aux F64.prec F64.emax false (Z.pos (m * m)) (e + e)
                loc_Exact) as [s'|s'| |s' m' e']; cbn [F64.isinf]; intros E.
    + rewrite H in E. inversion E. exact I.
    + discriminate.
    + destruct H.
    + destruct H as [-> _]. inversion E. exact I.
Qed.

(** A root that [math.sqrt] returns is non-negative. *)
Lemma sqrt_ok_nonneg (v r : float) : nonneg v -> F64.sqrt v = Ok r -> nonneg r.
Proof.
  destruct v as [[|]|[|]| |[|] m e]; intros Hv; try destruct Hv;
    unfold F64.sqrt; intros E; inversion E; subst; try exact I.
  cbn [SFsqrt]. unfold SFsqrt_core_binary.
  set (e' := Z.min _ _).
  set (m' := match e - 2 * e' with
             | Z0 => Z.pos m
             | Z.pos _ => Z.shiftl (Z.pos m) (e - 2 * e')
             | Z.neg _ => 0
             end).
  pose proof (Z.sqrtrem_spec m') as Hsq.
  assert (Hm' : 0 <= m').
  { subst m'. destruct (e - 2 * e'); [lia | | lia]. apply Z.shiftl_nonneg. lia. }
  specialize (Hsq Hm'). destruct (Z.sqrtrem m') as [q rem].
  assert (Hq : 0 <= q) by nia.
  pose proof (binary_round_aux_spec F64.prec F64.emax ltac:(reflexivity)
                ltac:(unfold F64.emax; lia) false q e'
                (if rem =? 0 then loc_Exact
                 else loc_Inexact (if rem <=? q then Lt else Gt)) Hq) as H.
  cbv zeta in H.
  destruct (binary_round_aux F64.prec F64.emax false q e' _) as [s'|s'| |s' m1 e1];
    cbn [nonneg].
  - now rewrite H.
  - destruct H as [-> _]. exact I.
  - exact H.
  - destruct H as [-> _]. exact I.
Qed.

(** Between valid points the distance, when the expression returns, is a
    non-negative number or infinity. *)
Lemma dist_nonneg (p q : Coords) (d : float) :
  is_valid_point p = true -> is_valid_point q = true ->
  dist p q = Ok d -> nonneg d.
Proof.
  intros Hp Hq.
  apply is_valid_point_finite in Hp. destruct Hp as (Hpx & Hpy & Hpz).
  apply is_valid_point_finite in Hq. destruct Hq as (Hqx & Hqy & Hqz).
  unfold dist.
  destruct (F64.pow2 (F64.sub (px p) (px q))) as [dx2|] eqn:Ex; [|discriminate].
  destruct (F64.pow2 (F64.sub (py p) (py q))) as [dy2|] eqn:Ey; [|discriminate].
  destruct (F64.pow2 (F64.sub (pz p) (pz q))) as [dz2|] eqn:Ez; [|discriminate].
  cbn [bind]. apply sqrt_ok_nonneg.
  apply add_nonneg; [apply add_nonneg|];
    eapply pow2_nonneg; try eassumption; now apply sub_not_nan.
Qed.

(** Against a positive finite threshold, "not below" is "at least" for a
    number, and conversely. *)
Lemma ltb_false_leb (M : positive) (E : Z) (d : float) :
  nonneg d -> F64.ltb d (S754_finite false M E) = false ->
  F64.leb (S754_finite false M E) d = true.
Proof.
  unfold F64.ltb, F64.leb, SFltb, SFleb.
  destruct d as [[|]|[|]| |[|] m e]; intros Hd; try destruct Hd;
    cbn [SFcompare]; try discriminate; try reflexivity.
  rewrite (Z.compare_antisym e E).
  destruct (Z.compare e E); cbn [CompOpp]; try discriminate; try reflexivity.
  change (Pos.compare_cont Eq M m) with (Pos.compare M m).
  change (Pos.compare_cont Eq m M) with (Pos.compare m M).
  rewrite (Pos.compare_antisym m M).
  now destruct (Pos.compare m M).
Qed.

Lemma leb_ltb_false (M : positive) (E : Z) (d : float) :
  F64.leb (S754_finite false M E) d = true ->
  F64.ltb d (S754_finite false M E) = false.
Proof.
  unfold F64.ltb, F64.leb, SFltb, SFleb.
  destruct d as [[|]|[|]| |[|] m e]; cbn [SFcompare]; try discriminate;
    try reflexivity.
  rewrite (Z.compare_antisym e E).
  destruct (Z.compare e E); cbn [CompOpp]; try discriminate; try reflexivity.
  change (Pos.compare_cont Eq M m) with (Pos.compare M m).
  change (Pos.compare_cont Eq m M) with (Pos.compare m M).
  rewrite (Pos.compare_antisym m M).
  now destruct (Pos.compare m M).
Qed.

(** ** The scan *)

(** A scan for a valid point that answers [false] has computed the distance
    to every valid point of the list and found each at least the threshold. *)
Lemma scan_false (M : positive) (E : Z) (point : Coords) (others : list Point) :
  is_valid_point point = true ->
  scan (S754_finite false M E) point others = Ok false ->
  forall q : Point, In q others -> is_valid_point q = true ->
  separated (S754_finite false M E) q point.
Proof.
  intros Hp.
  induction others as [|r others IH]; simpl; intros Hscan q Hin Hq; [easy|].
  destruct (is_valid_point r) eqn:Hr; simpl in Hscan.
  - destruct (dist point r) as [d|e] eqn:Hd; simpl in Hscan; [|discriminate].
    destruct (F64.ltb d (S754_finite false M E)) eqn:Hlt; [discriminate|].
    destruct Hin as [->|Hin]; [|now apply IH].
    exists d. split; [exact Hd|].
    apply ltb_false_leb; [|exact Hlt]. now apply (dist_nonneg point q).
  - destruct Hin as [->|Hin]; [congruence | now apply IH].
Qed.

(** A scan that meets a valid point at distance below the threshold, having
    raised nothing before it, answers [true]. *)
Lemma scan_hit thr (point : Coords) (l1 l2 : list Point) (q : Point) d :
  is_valid_point q = true -> dist point q = Ok d -> F64.ltb d thr = true ->
  scan thr point (l1 ++ q :: l2) = Ok true
  \/ exists e, scan thr point (l1 ++ q :: l2) = Raise e.
Proof.
  intros Hq Hd Hlt. induction l1 as [|r l1 IH]; simpl.
  - rewrite Hq; simpl. rewrite Hd; simpl. rewrite Hlt. now left.
  - destruct (is_valid_point r); simpl; [|exact IH].
    destruct (dist point r) as [d'|e]; simpl; [|right; now exists e].
    destruct (F64.ltb d' thr); [now left | exact IH].
Qed.

(** ** The reducer keeps a sparse list *)

Lemma reduce_loop_sparse (points filtered out : list Point) :
  sparse lit_0_002 filtered ->
  reduce_loop filtered points = Ok out ->
  sparse lit_0_002 out.
Proof.
  revert filtered. induction points as [|point rest IH]; simpl; intros filtered Hs Hr.
  - now inversion Hr; subst.
  - destruct (is_valid_point point) eqn:Hv; simpl in Hr; [|now apply (IH filtered)].
    destruct (scan lit_0_002 point filtered) as [[|]|e] eqn:Hscan; simpl in Hr.
    + now apply (IH filtered).
    + apply (IH (filtered ++ [point])); [|exact Hr].
      apply sparse_snoc; [exact Hs | exact Hv |].
      destruct Hs as [Hval _]. rewrite Forall_forall in Hval |- *.
      intros q Hq. apply (scan_false _ _ _ _ Hv Hscan q Hq), Hval, Hq.
    + discriminate.
Qed.

(** The reducer's output is made of points of its input. *)
Lemma reduce_loop_incl (points filtered out : list Point) :
  reduce_loop filtered points = Ok out ->
  forall p, In p out -> In p filtered \/ In p points.
Proof.
  revert filtered. induction points as [|point rest IH]; simpl; intros filtered Hr p Hp.
  - inversion Hr; subst. now left.
  - destruct (is_valid_point point); simpl in Hr.
    + destruct (scan lit_0_002 point filtered) as [[|]|e]; simpl in Hr;
        [ | | discriminate].
      * destruct (IH _ Hr p Hp); auto.
      * destruct (IH _ Hr p Hp) as [H|H]; auto.
        apply in_app_or in H. destruct H as [H|[->|[]]]; auto.
    + destruct (IH _ Hr p Hp); auto.
Qed.

(** ** The merge loop *)

Section MergeFacts.
Variable do_transform_point : TransformStamped -> Coords -> option Coords.

(** The loop only appends.  What it appends is sparse by itself, and every
    appended point is separated from every valid point the list held before:
    a candidate is tested against the list as it stands, the points of its
    own batch included. *)
Lemma merge_loop_appends transform (points acc : list Point) :
  exists new,
    fst (merge_loop do_transform_point acc transform points) = acc ++ new
    /\ sparse lit_0_01 new
    /\ (forall p q : Point, In p acc -> is_valid_point p = true ->
        In q new -> separated lit_0_01 p q).
Proof.
  revert acc. induction points as [|point rest IH]; simpl; intros acc.
  - exists []. rewrite app_nil_r. split; [reflexivity|].
    split; [apply sparse_nil | intros p q _ _ []].
  - destruct (transform_point do_transform_point point transform) as [tp|]; [|apply IH].
    unfold is_point_too_close.
    destruct (is_valid_point tp) eqn:Hv; simpl; [|apply IH].
    destruct (scan lit_0_01 tp acc) as [[|]|e] eqn:Hscan.
    + apply IH.
    + set (c := mkPoint tp (label point)).
      destruct (IH (acc ++ [c])) as (new & Heq & [Hval Hsp] & Hold).
      exists (c :: new). rewrite Heq, <- app_assoc.
      split; [reflexivity|]. split; [split|].
      * constructor; [exact Hv | exact Hval].
      * constructor; [|exact Hsp].
        apply Forall_forall. intros q Hq.
        apply Hold; [apply in_or_app; right; now left | exact Hv | exact Hq].
      * intros p q Hp Hpv [<-|Hq].
        -- apply (scan_false _ _ _ _ Hv Hscan p Hp Hpv).
        -- apply Hold; [apply in_or_app; now left | exact Hpv | exact Hq].
    + exists []. rewrite app_nil_r. split; [reflexivity|].
      split; [apply sparse_nil | intros p q _ _ []].
Qed.

Lemma sparse_app thr (l1 l2 : list Point) :
  sparse thr l1 -> sparse thr l2 ->
  (forall p q : Point, In p l1 -> is_valid_point p = true ->
     In q l2 -> separated thr p q) ->
  sparse thr (l1 ++ l2).
Proof.
  intros [Hv1 Hs1] [Hv2 Hs2] H12. split.
  - apply Forall_app. now split.
  - apply ForallOrdPairs_app; [exact Hs1 | exact Hs2 |].
    intros a b Ha Hb. apply H12; [exact Ha | | exact Hb].
    rewrite Forall_forall in Hv1. now apply Hv1.
Qed.

Lemma merge_loop_sparse transform (points acc : list Point) :
  sparse lit_0_01 acc ->
  sparse lit_0_01 (fst (merge_loop do_transform_point acc transform points)).
Proof.
  intros Hs.
  destruct (merge_loop_appends transform points acc) as (new & -> & Hn & H).
  now apply sparse_app.
Qed.

(** A pass changes the list only through the merge loop. *)
Lemma callback_state acc msg lookup :
  fst (pointcloud_callback do_transform_point acc msg lookup) = acc
  \/ exists transform points,
       lookup = Ok transform
       /\ reduce_points (extract_points_from_pointcloud2 msg) = Ok points
       /\ fst (pointcloud_callback do_transform_point acc msg lookup)
          = fst (merge_loop do_transform_point acc transform points).
Proof.
  unfold pointcloud_callback. destruct lookup as [transform|e].
  - destruct (F64.ltb lit_0_1 _); [now left|].
    destruct (reduce_points _) as [points|e]; [|now left].
    right. exists transform, points. repeat split.
    destruct (merge_loop do_transform_point acc transform points) as [acc' [e|]]; simpl; [reflexivity|].
    now destruct (publish_point_cloud acc').
  - left. now destruct (caught e).
Qed.

Lemma callback_sparse acc msg lookup :
  sparse lit_0_01 acc ->
  sparse lit_0_01 (fst (pointcloud_callback do_transform_point acc msg lookup)).
Proof.
  intros Hs. destruct (callback_state acc msg lookup) as [->|(tf & pts & _ & _ & ->)].
  - exact Hs.
  - now apply merge_loop_sparse.
Qed.

Lemma run_sparse inputs acc :
  sparse lit_0_01 acc -> sparse lit_0_01 (run do_transform_point acc inputs).
Proof.
  revert acc. induction inputs as [|[msg lookup] rest IH]; simpl; intros acc Hs.
  - exact Hs.
  - apply IH. now apply callback_sparse.
Qed.

End MergeFacts.

(** ** The reducer refines the greedy deduplication *)






(** Over points in range the scan and the reducer return. *)
Lemma scan_total thr (point : Coords) (others : list Point) :
  is_valid_point point = true -> point_in_range point = true ->
  Forall (fun q : Point => point_in_range q = true) others ->
  exists b, scan thr point others = Ok b.
Proof.
  intros Hp Rp. induction 1 as [|q others Rq _ IH]; simpl; [now exists false|].
  destruct (is_valid_point q) eqn:Hq; simpl; [|exact IH].
  destruct (dist_in_range point q Hp Hq Rp Rq) as [d ->]. cbn [bind].
  destruct (F64.ltb d thr); [now exists true | exact IH].
Qed.

Lemma reduce_loop_total (points filtered : list Point) :
  Forall (fun q : Point => point_in_range q = true) filtered ->
  Forall (fun q : Point => point_in_range q = true) points ->
  exists out, reduce_loop filtered points = Ok out.
Proof.
  intros Hf Hp. revert filtered Hf.
  induction Hp as [|point rest Rp _ IH]; simpl; intros filtered Hf.
  - now exists filtered.
  - destruct (is_valid_point point) eqn:Hv; simpl; [|now apply IH].
    destruct (scan_total lit_0_002 point filtered Hv Rp Hf) as [b ->]. cbn [bind].
    destruct b; [now apply IH|].
    apply IH. apply Forall_app. split; [exact Hf | now constructor].
Qed.

(** ** The staleness test *)

Lemma of_int_nonpos (n : Z) : n <= 0 -> nonpos (F64.of_int n).
Proof.
  intros Hn. destruct n as [|p|p]; [exact I | lia |].
  unfold F64.of_int. cbn [binary_normalize].
  pose proof (binary_round_spec F64.prec F64.emax ltac:(reflexivity)
                ltac:(unfold F64.emax; lia) true p 0) as H.
  cbv zeta in H.
  destruct (binary_round F64.prec F64.emax true p 0) as [s'|s'| |s' m' e'];
    cbn [nonpos].
  - exact I.
  - destruct H as [-> _]. exact I.
  - exact H.
  - destruct H as [-> _]. exact I.
Qed.

Lemma div_nonpos (v : float) (m : positive) (e : Z) :
  nonpos v -> nonpos (F64.div v (S754_finite false m e)).
Proof.
  destruct v as [s|[|]| |[|] mv ev]; intros Hv; try destruct Hv; try exact I.
  unfold F64.div. cbn [SFdiv xorb]. unfold SFdiv_core_binary.
  set (e' := Z.min _ _). set (m' := match ev - e - e' with
                                    | Z0 => Z.pos mv
                                    | Z.pos _ => Z.shiftl (Z.pos mv) (ev - e - e')
                                    | Z.neg _ => 0
                                    end).
  assert (Hm' : 0 <= m').
  { subst m'. destruct (ev - e - e'); [lia | | lia].
    apply Z.shiftl_nonneg. lia. }
  assert (Hq : 0 <= m' / Z.pos m) by (apply Z.div_pos; lia).
  unfold Z.div in Hq. destruct (Z.div_eucl m' (Z.pos m)) as [q r].
  pose proof (binary_round_aux_spec F64.prec F64.emax ltac:(reflexivity)
                ltac:(unfold F64.emax; lia) true q e'
                (new_location (Z.pos m) r) Hq) as H.
  cbv zeta in H.
  destruct (binary_round_aux F64.prec F64.emax true q e' _) as [s'|s'| |s' m1 e1];
    cbn [nonpos].
  - exact I.
  - destruct H as [-> _]. exact I.
  - exact H.
  - destruct H as [-> _]. exact I.
Qed.

Lemma ltb_nonpos (v : float) : nonpos v -> F64.ltb lit_0_1 v = false.
Proof.
  destruct v as [s|[|]| |[|] m e]; intros Hv; try destruct Hv; reflexivity.
Qed.

Lemma stale_time_diff (transform : TransformStamped) (msg : PointCloud2In) :
  F64.ltb lit_0_1 (time_diff transform msg)
  = stale (tf_stamp transform - in_stamp msg).
Proof. reflexivity. Qed.

Lemma stale_nonpos (n : Z) : n <= 0 -> stale n = false.
Proof.
  intros Hn. unfold stale, lit_1e9. apply ltb_nonpos, div_nonpos.
  now apply of_int_nonpos.
Qed.

(** A mantissa and exponent already in canonical form go through
    [binary_round_aux] unchanged. *)
Lemma binary_round_aux_canonical (prec emax : Z) (s : bool) (m : positive) (e : Z) :
  bounded prec emax m e = true ->
  binary_round_aux prec emax s (Z.pos m) e loc_Exact = S754_finite s m e.
Proof.
  unfold bounded, canonical_mantissa. intros H. apply andb_prop in H.
  destruct H as [Hc He]. apply Z.eqb_eq in Hc.
  unfold binary_round_aux, shr_fexp. cbn [Zdigits2]. rewrite Hc, Z.sub_diag.
  cbn [shr shr_record_of_loc shr_m loc_of_shr_record round_nearest_even Zdigits2].
  rewrite Hc, Z.sub_diag. cbn [shr shr_record_of_loc shr_m]. now rewrite He.
Qed.

Lemma pos_iter_xO (m d : positive) : Z.pos (Pos.iter xO m d) = Z.pos m * 2 ^ Z.pos d.
Proof.
  induction d as [|d IH] using Pos.peano_ind.
  - simpl. lia.
  - rewrite Pos.iter_succ, Pos2Z.inj_xO, IH, Pos2Z.inj_succ, Z.pow_succ_r by lia. lia.
Qed.

(** [float(n)] is exact below [2 ^ 53]. *)
Lemma of_int_exact (n : Z) :
  0 < n < 2 ^ 53 ->
  exists mz, F64.of_int n = S754_finite false mz (Zdigits2 n - 53)
             /\ Z.pos mz = n * 2 ^ (53 - Zdigits2 n).
Proof.
  intros [Hpos Hlt]. destruct n as [|p|p]; try lia.
  assert (Hd : Zdigits2 (Z.pos p) <= 53) by (apply Zdigits2_le; lia).
  pose proof (Zdigits2_lower (Z.pos p) ltac:(lia)) as Hlow.
  cbn [Zdigits2] in *.
  unfold F64.of_int. cbn [binary_normalize]. unfold binary_round, shl_align.
  assert (Hf : fexp F64.prec F64.emax (Z.pos (digits2_pos p) + 0)
               = Z.pos (digits2_pos p) - 53).
  { unfold fexp, SpecFloat.emin, F64.prec, F64.emax. zfold. lia. }
  rewrite Hf.
  destruct (Z.pos (digits2_pos p) - 53 - 0) as [|q|q] eqn:Eq; try lia.
  - exists p. replace (Z.pos (digits2_pos p) - 53) with 0 by lia.
    split; [|replace (53 - Z.pos (digits2_pos p)) with 0 by lia; lia].
    apply binary_round_aux_canonical.
    unfold bounded, canonical_mantissa, fexp, SpecFloat.emin, F64.prec, F64.emax.
    zfold. apply andb_true_intro. split; [apply Z.eqb_eq | apply Z.leb_le]; lia.
  - exists (Pos.iter xO p q). split.
    + apply binary_round_aux_canonical.
      unfold bounded, canonical_mantissa. rewrite digits2_pos_iter_xO.
      unfold fexp, SpecFloat.emin, F64.prec, F64.emax.
      zfold. apply andb_true_intro. split; [apply Z.eqb_eq | apply Z.leb_le]; lia.
    + rewrite pos_iter_xO. f_equal. f_equal. lia.
Qed.

Lemma div_1e9_unfold (mz : positive) (ez : Z) :
  2 ^ 52 <= Z.pos mz < 2 ^ 53 -> -1000 <= ez ->
  F64.div (S754_finite false mz ez) lit_1e9
  = binary_round_aux F64.prec F64.emax false
      (Z.pos mz * 2 ^ 53 / mant_1e9) (ez - 30)
      (new_location mant_1e9 (Z.pos mz * 2 ^ 53 mod mant_1e9)).
Proof.
  intros Hm He. unfold F64.div, lit_1e9. cbn [SFdiv xorb].
  unfold SFdiv_core_binary.
  assert (Hd1 : Zdigits2 (Z.pos mz) = 53).
  { apply Z.le_antisymm; [apply Zdigits2_le; lia | apply Zdigits2_ge; lia]. }
  rewrite Hd1. change (Zdigits2 8388608000000000) with 53.
  assert (He' : Z.min (fexp F64.prec F64.emax (53 + ez - (53 + -23))) (ez - -23)
                = ez - 30).
  { unfold fexp, SpecFloat.emin, F64.prec, F64.emax. zfold. lia. }
  zfold. rewrite He'. replace (ez - -23 - (ez - 30)) with 53 by lia.
  rewrite Z.shiftl_mul_pow2 by lia.
  unfold Z.modulo, Z.div, mant_1e9.
  now destruct (Z.div_eucl (Z.pos mz * 2 ^ 53) 8388608000000000).
Qed.

Lemma digits_53 (m : Z) :
  4503599627370496 <= m < 9007199254740992 -> Zdigits2 m = 53.
Proof.
  intros H. apply Z.le_antisymm; [apply Zdigits2_le | apply Zdigits2_ge]; cbn; lia.
Qed.

Lemma digits_54 (m : Z) :
  9007199254740992 <= m < 18014398509481984 -> Zdigits2 m = 54.
Proof.
  intros H. apply Z.le_antisymm; [apply Zdigits2_le | apply Zdigits2_ge]; cbn; lia.
Qed.

(** How far [shr_fexp] shifts a mantissa of 53 or 54 digits. *)
Lemma shift_amount (X e : Z) :
  -1050 <= e -> 4503599627370496 <= X < 18014398509481984 ->
  Z.max 0 (fexp F64.prec F64.emax (Zdigits2 X + e) - e)
  = if X <? 9007199254740992 then 0 else 1.
Proof.
  intros He HX. unfold fexp, SpecFloat.emin, F64.prec, F64.emax. zfold.
  destruct (X <? 9007199254740992) eqn:E.
  - apply Z.ltb_lt in E. rewrite (digits_53 X) by lia. lia.
  - apply Z.ltb_ge in E. rewrite (digits_54 X) by lia. lia.
Qed.

(** The quotient of a normal binary64 number by [1e9]: its exponent is that
    of the dividend less 30, 29 or 28, and its mantissa is within one of the
    integer quotient [Q] of the mantissas. *)
Lemma div_1e9_shape (mz : positive) (ez : Z) :
  2 ^ 52 <= Z.pos mz < 2 ^ 53 -> -1000 <= ez ->
  let Q := Z.pos mz * 2 ^ 53 / mant_1e9 in
  match F64.div (S754_finite false mz ez) lit_1e9 with
  | S754_finite false m e =>
      ez - 30 <= e <= ez - 28
      /\ (e = ez - 30 -> Q <= Z.pos m <= Q + 1)
      /\ (e = ez - 29 -> 2 ^ 53 - 1 <= Q /\ Z.pos m <= Q / 2 + 1)
      /\ (e = ez - 28 -> 2 ^ 54 - 2 <= Q /\ Z.pos m = 2 ^ 52)
  | S754_infinity false => 971 < ez - 28
  | _ => False
  end.
Proof.
  intros Hm He Q. rewrite (div_1e9_unfold mz ez Hm He). fold Q.
  assert (HQ : 4503599627370496 <= Q < 18014398509481984).
  { subst Q. unfold mant_1e9. split.
    - apply Z.div_le_lower_bound; lia.
    - apply Z.div_lt_upper_bound; lia. }
  assert (He30 : -1050 <= ez - 30) by lia.
  generalize (new_location mant_1e9 (Z.pos mz * 2 ^ 53 mod mant_1e9)).
  clearbody Q. clear Hm. intros loc.
  change (2 ^ 52) with 4503599627370496.
  change (2 ^ 53) with 9007199254740992.
  change (2 ^ 54) with 18014398509481984.
  destruct (binary_round_aux_eq F64.prec F64.emax false Q (ez - 30) loc
              ltac:(lia)) as (m1 & Hm1 & ->).
  rewrite (shift_amount Q (ez - 30) He30 HQ) in *.
  set (n1 := if Q <? 9007199254740992 then 0 else 1) in *.
  assert (Hn1 : n1 = 0 /\ Q < 9007199254740992 /\ Q <= m1 <= Q + 1
                \/ n1 = 1 /\ 9007199254740992 <= Q /\ Q / 2 <= m1 <= Q / 2 + 1).
  { subst n1. destruct (Q <? 9007199254740992) eqn:E.
    - left. apply Z.ltb_lt in E. rewrite Z.div_1_r in Hm1. lia.
    - right. apply Z.ltb_ge in E. change (2 ^ 1) with 2 in Hm1. lia. }
  clear Hm1. clearbody n1.
  assert (Hm1' : 4503599627370496 <= m1 <= 9007199254740992)
    by (destruct Hn1 as [H|H]; Z.to_euclidean_division_equations; lia).
  assert (Hm1 : 4503599627370496 <= m1 < 18014398509481984) by lia.
  assert (He1 : -1050 <= ez - 30 + n1) by (destruct Hn1 as [H|H]; lia).
  rewrite (shift_amount m1 (ez - 30 + n1) He1 Hm1).
  set (n2 := if m1 <? 9007199254740992 then 0 else 1).
  assert (Hn2 : n2 = 0 /\ m1 < 9007199254740992 /\ m1 / 2 ^ n2 = m1
                \/ n2 = 1 /\ m1 = 9007199254740992
                   /\ m1 / 2 ^ n2 = 4503599627370496).
  { subst n2. destruct (m1 <? 9007199254740992) eqn:E.
    - left. apply Z.ltb_lt in E. rewrite Z.div_1_r. lia.
    - right. apply Z.ltb_ge in E. change (2 ^ 1) with 2.
      assert (m1 = 9007199254740992) as -> by lia. repeat split. }
  clearbody n2.
  destruct (m1 / 2 ^ n2) as [|m|m] eqn:Em; try (destruct Hn2 as [H2|H2]; lia).
  unfold F64.emax, F64.prec.
  destruct (ez - 30 + n1 + n2 <=? 1024 - 53) eqn:Ele.
  - destruct Hn1 as [H1|H1], Hn2 as [H2|H2];
      (split; [lia|]; split; [|split]; intros E;
       Z.to_euclidean_division_equations; lia).
  - apply Z.leb_gt in Ele. destruct Hn1 as [H1|H1], Hn2 as [H2|H2]; lia.
Qed.

(** The comparison [0.1 < v] on a positive finite [v]. *)
Lemma ltb_lit_0_1_finite (m : positive) (e : Z) :
  F64.ltb lit_0_1 (S754_finite false m e)
  = (-56 <? e) || ((e =? -56) && (7205759403792794 <? Z.pos m)).
Proof.
  unfold F64.ltb, SFltb, lit_0_1. cbn [SFcompare].
  unfold Z.ltb at 1. destruct (Z.compare_spec (-56) e) as [E|E|E].
  - subst e. cbn [orb Z.eqb andb]. unfold Z.ltb. cbn [Z.compare].
    unfold Pos.compare. now destruct (Pos.compare_cont Eq _ m).
  - reflexivity.
  - cbn [orb]. assert (H : (e =? -56) = false) by (apply Z.eqb_neq; lia).
    now rewrite H.
Qed.

(** [float(n)] from [2 ^ 53] on: a normal number with a positive exponent,
    or infinity. *)
Lemma of_int_large (n : Z) :
  2 ^ 53 <= n ->
  match F64.of_int n with
  | S754_infinity false => True
  | S754_finite false m e => 1 <= e /\ 2 ^ 52 <= Z.pos m < 2 ^ 53
  | _ => False
  end.
Proof.
  intros Hn. destruct n as [|p|p]; try lia.
  assert (HD : 54 <= Zdigits2 (Z.pos p)) by (apply Zdigits2_ge; exact Hn).
  pose proof (Zdigits2_lower (Z.pos p) ltac:(lia)) as Hlow.
  pose proof (Zdigits2_upper (Z.pos p) ltac:(lia)) as Hup.
  unfold F64.of_int. cbn [binary_normalize]. unfold binary_round, shl_align.
  cbn [Zdigits2] in *. set (D := Z.pos (digits2_pos p)) in *.
  assert (Hf : fexp F64.prec F64.emax (D + 0) = D - 53).
  { unfold fexp, SpecFloat.emin, F64.prec, F64.emax. zfold. lia. }
  rewrite Hf. destruct (D - 53 - 0) as [|q|q] eqn:Eq; try lia.
  destruct (binary_round_aux_eq F64.prec F64.emax false (Z.pos p) 0 loc_Exact
              ltac:(lia)) as (m1 & Hm1 & ->).
  cbn [Zdigits2] in *. fold D in Hm1 |- *. rewrite Hf in *.
  replace (Z.max 0 (D - 53 - 0)) with (D - 53) in * by lia.
  assert (Hq : 2 ^ 52 <= Z.pos p / 2 ^ (D - 53) < 2 ^ 53).
  { split.
    - replace 52 with (D - 1 - (D - 53)) by lia. apply div_pow2_ge; [exact Hlow | lia].
    - apply (div_pow2_lt _ D); lia. }
  change (2 ^ 52) with 4503599627370496 in *.
  change (2 ^ 53) with 9007199254740992 in *.
  assert (Hm1' : 4503599627370496 <= m1 < 18014398509481984) by lia.
  assert (He1 : -1050 <= 0 + (D - 53)) by lia.
  rewrite (shift_amount m1 _ He1 Hm1').
  destruct (m1 <? 9007199254740992) eqn:E.
  - apply Z.ltb_lt in E. rewrite Z.div_1_r.
    destruct m1 as [|m|m]; try lia.
    destruct (_ <=? _); [|exact I]. lia.
  - apply Z.ltb_ge in E. assert (m1 = 9007199254740992) as -> by lia.
    change (9007199254740992 / 2 ^ 1) with 4503599627370496.
    destruct (_ <=? _); [|exact I]. lia.
Qed.

(** The quotient by [1e9] of a normal number with exponent at least -25 is
    above 0.1. *)
Lemma stale_large_exponent (mz : positive) (ez : Z) :
  2 ^ 52 <= Z.pos mz < 2 ^ 53 -> -25 <= ez ->
  F64.ltb lit_0_1 (F64.div (S754_finite false mz ez) lit_1e9) = true.
Proof.
  intros Hm He. pose proof (div_1e9_shape mz ez Hm ltac:(lia)) as H.
  cbv zeta in H.
  destruct (F64.div (S754_finite false mz ez) lit_1e9) as [s|[|]| |[|] m e];
    try contradiction; [reflexivity|].
  rewrite ltb_lit_0_1_finite.
  assert (E : (-56 <? e) = true) by (apply Z.ltb_lt; lia). now rewrite E.
Qed.

(** The staleness test on the stamps' difference in nanoseconds: the batch is
    stale exactly when the transform is more than 100 000 000 ns younger. *)
Lemma stale_iff (n : Z) : stale n = (100000000 <? n).
Proof.
  destruct (Z_le_gt_dec n 0) as [Hneg|Hpos].
  { rewrite stale_nonpos by exact Hneg. symmetry. apply Z.ltb_ge. lia. }
  unfold stale.
  destruct (Z_lt_le_dec n (2 ^ 53)) as [Hsmall|Hbig].
  - destruct (of_int_exact n ltac:(lia)) as (mz & -> & Hmz).
    pose proof (Zdigits2_lower n ltac:(lia)) as Hlow.
    pose proof (Zdigits2_upper n ltac:(lia)) as Hup.
    assert (Hd : 1 <= Zdigits2 n <= 53).
    { split; [apply Zdigits2_ge; simpl; lia | apply Zdigits2_le; lia]. }
    set (dn := Zdigits2 n) in *.
    assert (Hm : 2 ^ 52 <= Z.pos mz < 2 ^ 53).
    { rewrite Hmz. split.
      - replace 52 with ((dn - 1) + (53 - dn)) by lia.
        rewrite Z.pow_add_r by lia. apply Z.mul_le_mono_nonneg_r; [|exact Hlow].
        apply Z.pow_nonneg. lia.
      - replace 53 with (dn + (53 - dn)) at 2 by lia.
        rewrite Z.pow_add_r by lia. apply Z.mul_lt_mono_pos_r; [|exact Hup].
        apply Z.pow_pos_nonneg; lia. }
    destruct (Z_le_gt_dec 28 dn) as [H28|H28].
    { rewrite stale_large_exponent by (try exact Hm; lia).
      symmetry. apply Z.ltb_lt.
      assert (2 ^ 27 <= 2 ^ (dn - 1)) by (apply Z.pow_le_mono_r; lia).
      change (2 ^ 27) with 134217728 in *. lia. }
    pose proof (div_1e9_shape mz (dn - 53) Hm ltac:(lia)) as H.
    cbv zeta in H. unfold mant_1e9 in H.
    destruct (F64.div (S754_finite false mz (dn - 53)) lit_1e9)
      as [s|[|]| |[|] m e]; try contradiction; [lia|].
    rewrite ltb_lit_0_1_finite.
    destruct H as (He & H30 & H29 & H28').
    change (2 ^ 52) with 4503599627370496 in *.
    change (2 ^ 53) with 9007199254740992 in *.
    change (2 ^ 54) with 18014398509481984 in *.
    destruct (Z_le_gt_dec dn 25) as [H25|H25].
    { (* below 2 ^ 25: the exponent is at most -56, and -56 only with the
         least mantissa *)
      assert (Hn : n < 2 ^ 25).
      { eapply Z.lt_le_trans; [exact Hup|]. apply Z.pow_le_mono_r; lia. }
      change (2 ^ 25) with 33554432 in Hn.
      replace (100000000 <? n) with false by (symmetry; apply Z.ltb_ge; lia).
      assert (E1 : (-56 <? e) = false) by (apply Z.ltb_ge; lia). rewrite E1.
      destruct (Z.eqb_spec e (-56)) as [E|E]; [|reflexivity].
      destruct (H28' ltac:(lia)) as [_ ->]. reflexivity. }
    assert (Hdn : dn = 26 \/ dn = 27) by lia.
    destruct Hdn as [Hdn|Hdn]; rewrite Hdn in *.
    + (* [2 ^ 25, 2 ^ 26) *)
      change (2 ^ (26 - 1)) with 33554432 in Hlow. change (2 ^ 26) with 67108864 in Hup.
      change (2 ^ (53 - 26)) with 134217728 in Hmz.
      replace (100000000 <? n) with false by (symmetry; apply Z.ltb_ge; lia).
      assert (HQ : Z.pos mz * 9007199254740992 / 8388608000000000
                   <= 9671406556917033).
      { apply Z.lt_succ_r. apply Z.div_lt_upper_bound; lia. }
      apply orb_false_intro; [apply Z.ltb_ge | apply andb_false_iff].
      * destruct (Z.eq_dec e (26 - 53 - 28)) as [E|E]; [|lia].
        destruct (H28' E) as [HQ' _]. lia.
      * destruct (Z.eqb_spec e (-56)) as [E|E]; [right | now left].
        apply Z.ltb_ge. destruct (H29 ltac:(lia)) as [_ Hm29].
        revert Hm29 HQ. generalize (Z.pos mz * 9007199254740992 / 8388608000000000).
        intros Q Hm29 HQ. Z.to_euclidean_division_equations. lia.
    + (* [2 ^ 26, 2 ^ 27): the binade of 100 000 000 *)
      change (2 ^ (27 - 1)) with 67108864 in Hlow. change (2 ^ 27) with 134217728 in Hup.
      change (2 ^ (53 - 27)) with 67108864 in Hmz.
      destruct (Z.ltb_spec 100000000 n) as [Hn|Hn].
      * assert (HQ : 7205759475850387
                     <= Z.pos mz * 9007199254740992 / 8388608000000000).
        { apply Z.div_le_lower_bound; lia. }
        destruct (Z.ltb_spec (-56) e) as [E|E]; [reflexivity|].
        assert (E' : e = -56) by lia. subst e. cbn [orb Z.eqb andb].
        apply Z.ltb_lt. specialize (H30 eq_refl). lia.
      * assert (HQ : Z.pos mz * 9007199254740992 / 8388608000000000
                     <= 7205759403792793).
        { apply Z.lt_succ_r. apply Z.div_lt_upper_bound; lia. }
        apply orb_false_intro; [apply Z.ltb_ge | apply andb_false_iff].
        -- destruct (Z.eq_dec e (27 - 53 - 30)) as [E|E]; [lia|].
           destruct (Z.eq_dec e (27 - 53 - 29)) as [E'|E'].
           ++ destruct (H29 E') as [HQ' _]. lia.
           ++ destruct (H28' ltac:(lia)) as [HQ' _]. lia.
        -- destruct (Z.eqb_spec e (-56)) as [E|E]; [right | now left].
           apply Z.ltb_ge. specialize (H30 ltac:(lia)). lia.
  - pose proof (of_int_large n Hbig) as H.
    replace (100000000 <? n) with true
      by (symmetry; apply Z.ltb_lt; change (2 ^ 53) with 9007199254740992 in Hbig; lia).
    destruct (F64.of_int n) as [s|[|]| |[|] m e]; try contradiction.
    + reflexivity.
    + apply stale_large_exponent; [apply H | lia].
Qed.

(** The two ways past the lookup. *)
Section GateFacts.
Variable do_transform_point : TransformStamped -> Coords -> option Coords.



End GateFacts.

(** ** Re-merging *)

(** A valid candidate with the coordinates of a stored point is never
    answered [false] by the scan. *)
Lemma scan_same (point : Coords) (others : list Point) (q : Point) :
  In q others -> coords q = point -> is_valid_point point = true ->
  scan lit_0_01 point others = Ok true
  \/ exists e, scan lit_0_01 point others = Raise e.
Proof.
  intros Hin Heq Hv. apply in_split in Hin. destruct Hin as (l1 & l2 & ->).
  apply (scan_hit _ _ _ _ _ (S754_zero false)).
  - now rewrite Heq.
  - rewrite Heq. now apply dist_diag.
  - reflexivity.
Qed.

Section Remerge.
Variable do_transform_point : TransformStamped -> Coords -> option Coords.

Lemma merge_loop_remerge transform (points acc : list Point) :
  (forall p tp, In p points ->
     transform_point do_transform_point p transform = Some tp ->
     exists q : Point, In q acc /\ coords q = tp) ->
  fst (merge_loop do_transform_point acc transform points) = acc.
Proof.
  induction points as [|point rest IH]; simpl; intros H; [reflexivity|].
  assert (IH' : fst (merge_loop do_transform_point acc transform rest) = acc).
  { apply IH. intros p tp Hp. apply H. now right. }
  destruct (transform_point do_transform_point point transform) as [tp|] eqn:Ht;
    [|exact IH'].
  unfold is_point_too_close.
  destruct (is_valid_point tp) eqn:Hv; simpl; [|exact IH'].
  destruct (H point tp (or_introl eq_refl) Ht) as (q & Hq & Heq).
  destruct (scan_same tp acc q Hq Heq Hv) as [->|[e ->]]; [exact IH' | reflexivity].
Qed.

End Remerge.

(** ** The claims *)







(** C5.  Serialization round trip.  For a list of N stored points whose
    labels are uint32 values, the serializer builds a buffer of exactly 16 N
    bytes: the points' records in insertion order, each the little-endian
    float32 of x, y and z at offsets 0, 4 and 8 and the little-endian uint32
    label at offset 12.  Reading the buffer back with that layout gives, point
    by point, the coordinates rounded to float32 and the label unchanged.
    When the list is not empty this buffer is the published message's data,
    with N as its width and 16 as its point step. *)
Theorem serialization_round_trip (acc : list Point) :
  Forall (fun p => uint32 (label p)) acc ->
  exists buf,
    cloud_data acc = Ok buf
    /\ Z.of_nat (List.length buf) = 16 * Z.of_nat (List.length acc)
    /\ buf = flat_map record_bytes acc
    /\ decode buf = map wire_point acc
    /\ (acc <> [] ->
        exists m, publish_point_cloud acc = Ok (Some m)
                  /\ data m = buf
                  /\ width m = Z.of_nat (List.length acc)
                  /\ point_step m = 16
                  /\ row_step m = 16 * Z.of_nat (List.length acc)
                  /\ is_bigendian m = false).
Proof.
  intros Hl. exists (flat_map record_bytes acc).
  pose proof (cloud_data_ok acc Hl) as Hd.
  split; [exact Hd|]. split; [rewrite length_flat_map_record_bytes; lia|].
  split; [reflexivity|]. split; [now apply decode_flat_map|].
  intros Hne. unfold publish_point_cloud. rewrite Hd.
  destruct acc as [|p acc]; [congruence|].
  eexists. split; [reflexivity|]. repeat split.
Qed.

(** C5 at a concrete list: two points, the second with the largest label. *)
Lemma serialization_round_trip_witness :
  exists buf,
    cloud_data [pt f_1 f_2 f_3 7; pt f_0_001 f_0 f_5 4294967295] = Ok buf
    /\ Z.of_nat (List.length buf) = 32
    /\ decode buf
       = map wire_point [pt f_1 f_2 f_3 7; pt f_0_001 f_0 f_5 4294967295].
Proof.
  destruct (serialization_round_trip
              [pt f_1 f_2 f_3 7; pt f_0_001 f_0 f_5 4294967295])
    as (buf & H1 & H2 & _ & H4 & _).
  - repeat constructor; unfold uint32; simpl; lia.
  - exists buf. split; [exact H1|]. split; [exact H2 | exact H4].
Defined.

(** C6.  Idempotent re-merge.  If every point of a batch that comes out of
    the transform lands on the coordinates of a point already stored, then
    the pass leaves the accumulated list exactly as it was, whatever the
    labels: nothing is appended. *)
Theorem idempotent_remerge
  (do_transform_point : TransformStamped -> Coords -> option Coords)
  (acc : list Point) (msg : PointCloud2In) (lookup : result TransformStamped) :
  (forall transform p tp,
      lookup = Ok transform -> In p (in_points msg) ->
      transform_point do_transform_point p transform = Some tp ->
      exists q : Point, In q acc /\ coords q = tp) ->
  fst (pointcloud_callback do_transform_point acc msg lookup) = acc.
Proof.
  intros H.
  destruct (callback_state do_transform_point acc msg lookup)
    as [E|(tf & pts & Hl & Hr & ->)]; [exact E|].
  apply merge_loop_remerge. intros p tp Hp Ht.
  apply (H tf p tp Hl); [|exact Ht].
  destruct (reduce_loop_incl _ [] pts Hr p Hp) as [[]|Hin].
  unfold extract_points_from_pointcloud2 in Hin.
  apply filter_In in Hin. apply Hin.
Qed.

(** C6 at a concrete pass: the stored point (1, 2, 3), labelled 7, arrives
    again under the identity transform, labelled 9. *)
Lemma idempotent_remerge_witness :
  fst (pointcloud_callback translate [pt f_1 f_2 f_3 7]
         (mkCloudIn 0 "camera" [pt f_1 f_2 f_3 9])
         (Ok (identity_transform 0)))
  = [pt f_1 f_2 f_3 7].
Proof.
  apply idempotent_remerge.
  intros transform p tp Hl [<-|[]] Ht.
  injection Hl as <-. vm_compute in Ht. injection Ht as <-.
  exists (pt f_1 f_2 f_3 7). split; [now left | reflexivity].
Defined.



(** C8.  Lookup failure.  When the transform lookup raises a lookup,
    connectivity or extrapolation exception, the pass stops there: the
    accumulated list is exactly what it was, the batch is dropped, and
    nothing is handed to the publisher. *)
Theorem lookup_failure_drops_batch
  (do_transform_point : TransformStamped -> Coords -> option Coords)
  (acc : list Point) (msg : PointCloud2In) :
  Forall (fun e =>
            let pass := pointcloud_callback do_transform_point acc msg (Raise e) in
            pass = (acc, LookupDropped e) /\ published (snd pass) = None)
         lookup_failures.
Proof. repeat constructor. Qed.

(** C9.  Empty set.  With nothing accumulated [publish_point_cloud] returns
    before it builds a message, and a pass that ends with an empty list has
    handed nothing to the publisher, not even an empty buffer. *)
Theorem empty_set_is_not_published :
  publish_point_cloud [] = Ok None
  /\ forall (do_transform_point : TransformStamped -> Coords -> option Coords)
       acc msg lookup,
       fst (pointcloud_callback do_transform_point acc msg lookup) = [] ->
       published (snd (pointcloud_callback do_transform_point acc msg lookup))
       = None.
Proof.
  split; [reflexivity|].
  intros dtp acc msg lookup. unfold pointcloud_callback.
  destruct lookup as [tf|e]; [|now destruct (caught e)].
  destruct (F64.ltb lit_0_1 _); [reflexivity|].
  destruct (reduce_points _) as [pts|e]; [|reflexivity].
  destruct (merge_loop dtp acc tf pts) as [acc' [e|]]; [reflexivity|].
  destruct (publish_point_cloud acc') as [pub|e] eqn:Hp; simpl; [|reflexivity].
  intros ->. simpl in Hp. now inversion Hp.
Qed.

(** ** Facts for the further properties *)

(** *** Subsequences *)

Lemma subseq_nil_l {A : Type} (l : list A) : subseq [] l.
Proof. induction l; constructor; assumption. Qed.

Lemma subseq_trans {A : Type} (l1 l2 l3 : list A) :
  subseq l1 l2 -> subseq l2 l3 -> subseq l1 l3.
Proof.
  intros H12 H23. revert l1 H12.
  induction H23 as [|x l2 l3 _ IH|x l2 l3 _ IH]; intros l1 H12.
  - exact H12.
  - constructor. now apply IH.
  - inversion H12; subst; constructor; now apply IH.
Qed.

Lemma subseq_filter {A : Type} (f : A -> bool) (l : list A) :
  subseq (filter f l) l.
Proof.
  induction l as [|x l IH]; simpl; [constructor|].
  destruct (f x); constructor; exact IH.
Qed.

Lemma subseq_length {A : Type} (l1 l2 : list A) :
  subseq l1 l2 -> (List.length l1 <= List.length l2)%nat.
Proof. induction 1; simpl; lia. Qed.

Lemma filter_swap {A : Type} (f g : A -> bool) (l : list A) :
  filter f (filter g l) = filter g (filter f l).
Proof.
  induction l as [|x l IH]; simpl; [reflexivity|].
  destruct (f x) eqn:Hf, (g x) eqn:Hg; simpl; rewrite ?Hf, ?Hg, IH; reflexivity.
Qed.

Lemma ForallOrdPairs_impl {A : Type} (R S : A -> A -> Prop) (l : list A) :
  (forall a b, R a b -> S a b) -> ForallOrdPairs R l -> ForallOrdPairs S l.
Proof.
  intros H. induction 1 as [|a l Ha _ IH]; constructor; [|exact IH].
  apply Forall_forall. rewrite Forall_forall in Ha. intros b Hb. now apply H, Ha.
Qed.

(** *** Rounding is odd, and exact on the format's own values *)

Lemma binary_round_aux_opp (prec emax : Z) (s : bool) (m e : Z) (l : location) :
  binary_round_aux prec emax (negb s) m e l
  = SFopp (binary_round_aux prec emax s m e l).
Proof.
  unfold binary_round_aux.
  destruct (shr_fexp prec emax m e l) as [mrs' e'].
  destruct (shr_fexp prec emax _ e' loc_Exact) as [mrs'' e''].
  destruct (shr_m mrs''); [reflexivity | | reflexivity].
  now destruct (_ <=? _).
Qed.

Lemma binary_round_opp (prec emax : Z) (s : bool) (m : positive) (e : Z) :
  binary_round prec emax (negb s) m e = SFopp (binary_round prec emax s m e).
Proof.
  unfold binary_round. destruct (shl_align m e _) as [mz ez].
  apply binary_round_aux_opp.
Qed.

Lemma binary_normalize_opp (prec emax : Z) (m e : Z) :
  m <> 0 ->
  binary_normalize prec emax (- m) e false
  = SFopp (binary_normalize prec emax m e false).
Proof.
  destruct m as [|p|p]; intros H; [easy| |]; cbn [Z.opp binary_normalize].
  - apply (binary_round_opp prec emax false).
  - rewrite (binary_round_opp prec emax false).
    now destruct (binary_round _ _ _ _ _) as [[|]|[|]| |[|] m' e'].
Qed.

Lemma binary_round_canonical (prec emax : Z) (s : bool) (m : positive) (e : Z) :
  bounded prec emax m e = true ->
  binary_round prec emax s m e = S754_finite s m e.
Proof.
  intros H. pose proof H as Hb.
  unfold bounded, canonical_mantissa in H. apply andb_prop in H.
  destruct H as [Hc _]. apply Z.eqb_eq in Hc.
  unfold binary_round, shl_align. rewrite Hc. zfold. rewrite Z.sub_diag.
  now apply binary_round_aux_canonical.
Qed.

Lemma f32_of_double_exact (v : spec_float) :
  SpecFloat.valid_binary F32.prec F32.emax v = true -> F32.of_double v = v.
Proof.
  destruct v as [s|s| |s m e]; try reflexivity.
  cbn [SpecFloat.valid_binary F32.of_double]. intros H.
  destruct s; cbn [cond_Zopp Z.opp binary_normalize];
    now apply binary_round_canonical.
Qed.

(** *** The distance expression, operands swapped *)

(** Swapping the operands of a subtraction negates the difference, or leaves
    it [+0.0]. *)
Lemma sub_swap (a b : float) :
  F64.sub b a = SFopp (F64.sub a b)
  \/ (F64.sub a b = S754_zero false /\ F64.sub b a = S754_zero false).
Proof.
  unfold F64.sub.
  destruct a as [[|]|[|]| |sa ma ea], b as [[|]|[|]| |sb mb eb];
    cbn [SFsub SFopp negb]; auto;
    try (left; now rewrite ?Bool.negb_involutive).
  zfold. rewrite (Z.min_comm eb ea).
  set (ez := Z.min ea eb).
  set (x := cond_Zopp sa (Z.pos (fst (shl_align ma ea ez)))).
  set (y := cond_Zopp sb (Z.pos (fst (shl_align mb eb ez)))).
  destruct (Z.eq_dec (x - y) 0) as [E|E].
  - right. replace (y - x) with 0 by lia. rewrite E. now split.
  - left. replace (y - x) with (- (x - y)) by lia.
    now apply binary_normalize_opp.
Qed.

Lemma pow2_opp (v : float) : F64.pow2 (SFopp v) = F64.pow2 v.
Proof.
  destruct v as [s|s| |s m e]; cbn [SFopp F64.pow2]; try reflexivity.
  - unfold F64.mul. cbn [SFmul]. now destruct s.
  - unfold F64.mul. cbn [SFmul]. now destruct s.
Qed.

Lemma pow2_sub_swap (a b : float) :
  F64.pow2 (F64.sub a b) = F64.pow2 (F64.sub b a).
Proof.
  destruct (sub_swap a b) as [->|[-> ->]]; [|reflexivity].
  symmetry. apply pow2_opp.
Qed.

(** *** The two thresholds *)

Lemma leb_lit_0_01_0_002 (d : float) :
  F64.leb lit_0_01 d = true -> F64.leb lit_0_002 d = true.
Proof.
  unfold F64.leb, SFleb, lit_0_01, lit_0_002.
  destruct d as [[|]|[|]| |[|] m e]; cbn [SFcompare]; try discriminate;
    try reflexivity.
  destruct (Z.compare_spec (-59) e) as [<-|Hlt|Hgt]; try discriminate.
  - intros _. reflexivity.
  - intros _. assert (H : (-61 ?= e) = Lt) by (apply Z.compare_lt_iff; lia).
    now rewrite H.
Qed.

Lemma sparse_0_01_0_002 (l : list Point) :
  sparse lit_0_01 l -> sparse lit_0_002 l.
Proof.
  intros [Hv Ho]. split; [exact Hv|].
  apply (ForallOrdPairs_impl (fun p q : Point => separated lit_0_01 p q)); [|exact Ho].
  intros a b (d & Hd & Hle). exists d. split; [exact Hd|].
  now apply leb_lit_0_01_0_002.
Qed.

(** *** The reducer *)

(** On a list that is already sparse at [d_local] every scan answers false
    and the reducer keeps every point. *)
Lemma reduce_loop_fixed (rest filtered : list Point) :
  sparse lit_0_002 (filtered ++ rest) ->
  reduce_loop filtered rest = Ok (filtered ++ rest).
Proof.
  revert filtered. induction rest as [|q rest IH]; intros filtered Hsp; simpl.
  - now rewrite app_nil_r.
  - destruct Hsp as [Hval Hord].
    assert (Hq : is_valid_point q = true).
    { rewrite Forall_forall in Hval. apply Hval, in_or_app. right. now left. }
    rewrite Hq. simpl.
    assert (Hscan : scan lit_0_002 q filtered = Ok false).
    { apply ForallOrdPairs_app_inv in Hord. destruct Hord as [_ H12].
      assert (Hf : Forall (fun p : Point => is_valid_point p = true) filtered)
        by (apply Forall_app in Hval; apply Hval).
      clear - H12 Hf. induction Hf as [|p filtered Hp _ IHf]; simpl; [reflexivity|].
      rewrite Hp. simpl.
      destruct (H12 p q (or_introl eq_refl) (or_introl eq_refl)) as (d & -> & Hd).
      assert (Hd' : F64.ltb d lit_0_002 = false)
        by (apply leb_ltb_false; exact Hd).
      cbn [bind]. rewrite Hd'. apply IHf.
      intros a b Ha Hb. apply H12; [now right | exact Hb]. }
    rewrite Hscan. cbn [bind].
    replace (filtered ++ q :: rest) with ((filtered ++ [q]) ++ rest)
      by (now rewrite <- app_assoc).
    apply IH. rewrite <- app_assoc. now split.
Qed.

Lemma reduce_loop_subseq (points filtered out : list Point) :
  reduce_loop filtered points = Ok out ->
  exists kept, out = filtered ++ kept /\ subseq kept points.
Proof.
  revert filtered. induction points as [|p rest IH]; simpl; intros filtered H.
  - injection H as <-. exists []. rewrite app_nil_r. split; [reflexivity | constructor].
  - assert (Hskip : reduce_loop filtered rest = Ok out ->
                    exists kept, out = filtered ++ kept /\ subseq kept (p :: rest)).
    { intros H'. destruct (IH _ H') as (kept & -> & Hs).
      exists kept. split; [reflexivity | now constructor]. }
    destruct (is_valid_point p); simpl in H; [|now apply Hskip].
    destruct (scan lit_0_002 p filtered) as [[|]|e]; simpl in H;
      [now apply Hskip | | discriminate].
    destruct (IH _ H) as (kept & -> & Hs).
    exists (p :: kept). rewrite <- app_assoc. split; [reflexivity | now constructor].
Qed.

Lemma reduce_loop_app (l1 l2 filtered : list Point) :
  reduce_loop filtered (l1 ++ l2)
  = (kept <- reduce_loop filtered l1 ;; reduce_loop kept l2).
Proof.
  revert filtered. induction l1 as [|p l1 IH]; simpl; intros filtered; [reflexivity|].
  destruct (is_valid_point p); simpl; [|apply IH].
  destruct (scan lit_0_002 p filtered) as [[|]|e]; simpl;
    [apply IH | apply IH | reflexivity].
Qed.

Lemma scan_relabel (f : Z -> Z) thr (point : Coords) (others : list Point) :
  scan thr point (map (relabel f) others) = scan thr point others.
Proof.
  induction others as [|q others IH]; simpl; [reflexivity|].
  now rewrite IH.
Qed.

Lemma reduce_loop_relabel (f : Z -> Z) (points filtered : list Point) :
  reduce_loop (map (relabel f) filtered) (map (relabel f) points)
  = result_map (map (relabel f)) (reduce_loop filtered points).
Proof.
  revert filtered. induction points as [|p rest IH]; simpl; intros filtered;
    [reflexivity|].
  destruct (is_valid_point p); simpl; [|apply IH].
  rewrite scan_relabel.
  destruct (scan lit_0_002 p filtered) as [[|]|e]; simpl; [apply IH | | reflexivity].
  rewrite <- IH. now rewrite map_app.
Qed.

Lemma reduce_loop_filter_valid (points filtered : list Point) :
  reduce_loop filtered (filter (fun p : Point => is_valid_point p) points)
  = reduce_loop filtered points.
Proof.
  revert filtered. induction points as [|p rest IH]; simpl; intros filtered;
    [reflexivity|].
  destruct (is_valid_point p) eqn:Hv; simpl; [|apply IH].
  rewrite Hv. simpl.
  destruct (scan lit_0_002 p filtered) as [[|]|e]; simpl;
    [apply IH | apply IH | reflexivity].
Qed.

(** *** The publisher *)

Lemma pack_fffI_raise (p : Point) (e : exn) :
  pack_fffI p = Raise e -> e = StructError /\ bad_label p.
Proof.
  unfold pack_fffI, pack_I, bad_label, uint32.
  destruct (0 <=? label p) eqn:H0; cbn [andb bind].
  - destruct (label p <? 2 ^ 32) eqn:H1; cbn [bind]; [discriminate|].
    intros H. injection H as <-. split; [reflexivity|].
    apply Z.ltb_ge in H1. lia.
  - intros H. injection H as <-. split; [reflexivity|].
    apply Z.leb_gt in H0. lia.
Qed.

Lemma pack_fffI_bad (p : Point) :
  bad_label p -> pack_fffI p = Raise StructError.
Proof.
  unfold pack_fffI, pack_I, bad_label, uint32. intros H.
  destruct (0 <=? label p) eqn:H0; cbn [andb bind]; [|reflexivity].
  destruct (label p <? 2 ^ 32) eqn:H1; cbn [bind]; [|reflexivity].
  apply Z.leb_le in H0. apply Z.ltb_lt in H1. lia.
Qed.

Lemma cloud_data_raise (acc : list Point) (e : exn) :
  cloud_data acc = Raise e -> e = StructError /\ Exists bad_label acc.
Proof.
  induction acc as [|p acc IH]; simpl; [discriminate|].
  destruct (pack_fffI p) as [r|e'] eqn:Hp; simpl.
  - destruct (cloud_data acc) as [d|e'']; simpl; [discriminate|].
    intros H. injection H as <-. destruct (IH eq_refl) as [-> Hex].
    split; [reflexivity | now right].
  - intros H. injection H as <-. destruct (pack_fffI_raise p e' Hp) as [-> Hb].
    split; [reflexivity | now left].
Qed.

Lemma cloud_data_bad (acc : list Point) :
  Exists bad_label acc -> cloud_data acc = Raise StructError.
Proof.
  induction 1 as [p acc Hb|p acc _ IH]; simpl.
  - now rewrite (pack_fffI_bad p Hb).
  - destruct (pack_fffI p) as [r|e] eqn:Hp; simpl.
    + now rewrite IH.
    + now destruct (pack_fffI_raise p e Hp) as [-> _].
Qed.

Lemma publish_cloud_data (acc : list Point) (e : exn) :
  publish_point_cloud acc = Raise e <-> cloud_data acc = Raise e.
Proof.
  unfold publish_point_cloud. destruct acc as [|p acc]; [simpl; split; discriminate|].
  destruct (cloud_data (p :: acc)) as [d|e']; simpl; split; congruence.
Qed.

Lemma publish_shape (acc : list Point) (m : PointCloud2) :
  publish_point_cloud acc = Ok (Some m) ->
  acc <> [] /\ cloud_data acc = Ok (data m)
  /\ width m = Z.of_nat (List.length acc)
  /\ row_step m = 16 * width m /\ point_step m = 16 /\ height m = 1.
Proof.
  unfold publish_point_cloud. destruct acc as [|p acc]; [discriminate|].
  destruct (cloud_data (p :: acc)) as [d|e]; cbn [bind]; [|discriminate].
  intros H. injection H as <-.
  cbn [width data row_step height point_step].
  split; [discriminate|]. repeat split.
Qed.

(** *** The merge loop and the callback *)

Section PassFacts.
Variable do_transform_point : TransformStamped -> Coords -> option Coords.

Lemma merge_loop_relabel (f : Z -> Z) transform (points acc : list Point) :
  merge_loop do_transform_point (map (relabel f) acc) transform
    (map (relabel f) points)
  = (map (relabel f) (fst (merge_loop do_transform_point acc transform points)),
     snd (merge_loop do_transform_point acc transform points)).
Proof.
  revert acc. induction points as [|p rest IH]; simpl; intros acc; [reflexivity|].
  change (transform_point do_transform_point (relabel f p) transform)
    with (transform_point do_transform_point p transform).
  destruct (transform_point do_transform_point p transform) as [tp|]; [|apply IH].
  unfold is_point_too_close. rewrite scan_relabel.
  destruct (is_valid_point tp); simpl; [|apply IH].
  destruct (scan lit_0_01 tp acc) as [[|]|e]; [apply IH | | reflexivity].
  rewrite <- IH. now rewrite map_app.
Qed.

Lemma merge_loop_app transform (l1 l2 acc : list Point) :
  merge_loop do_transform_point acc transform (l1 ++ l2)
  = match merge_loop do_transform_point acc transform l1 with
    | (acc', None) => merge_loop do_transform_point acc' transform l2
    | (acc', Some e) => (acc', Some e)
    end.
Proof.
  revert acc. induction l1 as [|p l1 IH]; simpl; intros acc; [reflexivity|].
  destruct (transform_point do_transform_point p transform) as [tp|]; [|apply IH].
  destruct (is_point_too_close acc tp) as [[|]|e];
    [apply IH | apply IH | reflexivity].
Qed.

Lemma merge_loop_provenance transform (points acc : list Point) :
  exists kept new,
    fst (merge_loop do_transform_point acc transform points) = acc ++ new
    /\ subseq kept points
    /\ Forall2 (stored_from do_transform_point transform) kept new.
Proof.
  revert acc. induction points as [|p rest IH]; simpl; intros acc.
  - exists [], []. rewrite app_nil_r. repeat split; constructor.
  - assert (Hskip : exists kept new,
               fst (merge_loop do_transform_point acc transform rest) = acc ++ new
               /\ subseq kept (p :: rest)
               /\ Forall2 (stored_from do_transform_point transform) kept new).
    { destruct (IH acc) as (kept & new & H1 & H2 & H3).
      exists kept, new. split; [exact H1|]. split; [now constructor | exact H3]. }
    destruct (transform_point do_transform_point p transform) as [tp|] eqn:Ht;
      [|exact Hskip].
    destruct (is_point_too_close acc tp) as [[|]|e]; [exact Hskip | |].
    + destruct (IH (acc ++ [mkPoint tp (label p)])) as (kept & new & H1 & H2 & H3).
      exists (p :: kept), (mkPoint tp (label p) :: new).
      rewrite H1, <- app_assoc. split; [reflexivity|].
      split; [now constructor|]. constructor; [|exact H3]. now split.
    + exists [], []. simpl. rewrite app_nil_r. split; [reflexivity|].
      split; [apply subseq_nil_l | constructor].
Qed.

Lemma merge_loop_total transform (points acc : list Point) :
  Forall well_formed acc ->
  Forall (fun p : Point => uint32 (label p)) points ->
  (forall p tp, In p points ->
     transform_point do_transform_point p transform = Some tp ->
     point_in_range tp = true) ->
  exists acc',
    merge_loop do_transform_point acc transform points = (acc', None)
    /\ Forall well_formed acc'.
Proof.
  revert acc. induction points as [|p rest IH]; simpl; intros acc Hacc Hl Ht.
  - now exists acc.
  - inversion Hl as [|? ? Hlp Hlr]; subst.
    assert (IH' : forall acc0, Forall well_formed acc0 ->
              exists acc',
                merge_loop do_transform_point acc0 transform rest = (acc', None)
                /\ Forall well_formed acc').
    { intros acc0 H0. apply IH; [exact H0 | exact Hlr |].
      intros q tq Hq. apply Ht. now right. }
    destruct (transform_point do_transform_point p transform) as [tp|] eqn:Etp;
      [|now apply IH'].
    pose proof (Ht p tp (or_introl eq_refl) Etp) as Rtp.
    unfold is_point_too_close.
    destruct (is_valid_point tp) eqn:Hv; simpl; [|now apply IH'].
    assert (Hr : Forall (fun q : Point => point_in_range q = true) acc).
    { apply Forall_forall. intros q Hq. rewrite Forall_forall in Hacc.
      apply (Hacc q Hq). }
    destruct (scan_total lit_0_01 tp acc Hv Rtp Hr) as [[|] ->]; [now apply IH'|].
    apply IH'. apply Forall_app. split; [exact Hacc|].
    constructor; [|constructor]. now split.
Qed.

Lemma callback_appends acc msg lookup :
  exists new,
    fst (pointcloud_callback do_transform_point acc msg lookup) = acc ++ new.
Proof.
  destruct (callback_state do_transform_point acc msg lookup)
    as [->|(tf & pts & _ & _ & ->)].
  - exists []. now rewrite app_nil_r.
  - destruct (merge_loop_appends do_transform_point tf pts acc) as (new & -> & _).
    now exists new.
Qed.

Lemma callback_published acc msg lookup :
  published (snd (pointcloud_callback do_transform_point acc msg lookup)) = None
  \/ exists m,
       snd (pointcloud_callback do_transform_point acc msg lookup)
       = Completed (Some m)
       /\ publish_point_cloud
            (fst (pointcloud_callback do_transform_point acc msg lookup))
          = Ok (Some m).
Proof.
  unfold pointcloud_callback. destruct lookup as [tf|e];
    [|destruct (caught e); now left].
  destruct (F64.ltb lit_0_1 _); [now left|].
  destruct (reduce_points _) as [pts|e]; [|now left].
  destruct (merge_loop do_transform_point acc tf pts) as [acc' [e|]]; [now left|].
  destruct (publish_point_cloud acc') as [[m|]|e] eqn:Hp; simpl;
    [right | now left | now left].
  now exists m.
Qed.

Lemma bad_label_stays acc msg lookup :
  Exists bad_label acc ->
  Exists bad_label (fst (pointcloud_callback do_transform_point acc msg lookup)).
Proof.
  intros H. destruct (callback_appends acc msg lookup) as [new ->].
  apply Exists_app. now left.
Qed.

Lemma run_bad_label inputs acc :
  Exists bad_label acc -> Exists bad_label (run do_transform_point acc inputs).
Proof.
  revert acc. induction inputs as [|[msg lookup] inputs IH]; simpl; intros acc H;
    [exact H|].
  apply IH. now apply bad_label_stays.
Qed.

End PassFacts.

(** ** Further properties of the node *)

(** X1.  The staleness test is exact: the binary64 comparison of line 54,
    [time_diff > 0.1], holds exactly when the transform's stamp is more than
    100 000 000 ns after the message's. *)
Theorem staleness_test_exact (transform : TransformStamped) (msg : PointCloud2In) :
  F64.ltb lit_0_1 (time_diff transform msg)
  = (100000000 <? tf_stamp transform - in_stamp msg).
Proof. rewrite stale_time_diff. apply stale_iff. Qed.

(** X2.  The accumulated list is append-only: whatever a pass ends in, the
    list it leaves is the list it found followed by the points it stored. *)
Theorem accumulated_set_append_only
  (do_transform_point : TransformStamped -> Coords -> option Coords)
  (acc : list Point) (msg : PointCloud2In) (lookup : result TransformStamped) :
  exists new,
    fst (pointcloud_callback do_transform_point acc msg lookup) = acc ++ new.
Proof.
  destruct (callback_state do_transform_point acc msg lookup)
    as [->|(tf & pts & _ & _ & ->)].
  - exists []. now rewrite app_nil_r.
  - destruct (merge_loop_appends do_transform_point tf pts acc) as (new & -> & _).
    now exists new.
Qed.

(** X3.  The reducer is idempotent: reducing an output of [reduce_points]
    again returns it unchanged. *)
Theorem reduce_points_idempotent (points out : list Point) :
  reduce_points points = Ok out -> reduce_points out = Ok out.
Proof.
  intros H.
  assert (Hs : sparse lit_0_002 out)
    by (apply (reduce_loop_sparse points [] out); [apply sparse_nil | exact H]).
  apply (reduce_loop_fixed out [] Hs).
Qed.

(** X3 at the batch of the scenario. *)
Lemma reduce_points_idempotent_witness :
  reduce_points [pt f_0 f_0 f_0 1; pt f_5 f_5 f_5 2]
  = Ok [pt f_0 f_0 f_0 1; pt f_5 f_5 f_5 2].
Proof.
  apply (reduce_points_idempotent scenario_batch). vm_compute. reflexivity.
Defined.

(** X4.  A corrupt transform stores nothing: when a component of the
    transform's translation or rotation is NaN or infinite, [transform_point]
    answers [None] for every point and the merge loop leaves the list as it
    was. *)
Theorem corrupt_transform_stores_nothing
  (do_transform_point : TransformStamped -> Coords -> option Coords)
  (acc : list Point) (transform : TransformStamped) (points : list Point) :
  (let t := translation transform in
   let '(rx, ry, rz, rw) := rotation transform in
   existsb nonfinite [px t; py t; pz t] || existsb nonfinite [rx; ry; rz; rw])
  = true ->
  merge_loop do_transform_point acc transform points = (acc, None).
Proof.
  intros H.
  assert (Hnone : forall p,
             transform_point do_transform_point p transform = None).
  { intros p. unfold transform_point. cbv zeta in H.
    destruct (rotation transform) as [[[rx ry] rz] rw].
    destruct (existsb nonfinite [px (translation transform);
                                 py (translation transform);
                                 pz (translation transform)]); [reflexivity|].
    cbn [orb] in H. now rewrite H. }
  induction points as [|p rest IH]; simpl; [reflexivity|].
  now rewrite Hnone.
Qed.

(** X4 at a transform whose translation holds a NaN. *)
Lemma corrupt_transform_stores_nothing_witness :
  merge_loop translate [pt f_1 f_2 f_3 7]
    (mkTransform 0 "map" (mkCoords S754_nan f_0 f_0) (f_0, f_0, f_0, f_1))
    scenario_batch
  = ([pt f_1 f_2 f_3 7], None).
Proof. apply corrupt_transform_stores_nothing. reflexivity. Defined.

(** X5.  The distance expression is symmetric to the last bit: with its two
    points swapped it returns the same binary64 value, or raises the same
    exception.  So being separated does not depend on which of two points
    was the candidate and which was already kept. *)
Theorem distance_is_symmetric (p q : Coords) :
  dist p q = dist q p
  /\ forall thr, separated thr p q <-> separated thr q p.
Proof.
  assert (H : forall a b : Coords, dist a b = dist b a).
  { intros a b. unfold dist.
    now rewrite (pow2_sub_swap (px a)), (pow2_sub_swap (py a)),
      (pow2_sub_swap (pz a)). }
  split; [apply H|].
  intros thr. unfold separated. now rewrite (H q p).
Qed.

(** X6.  The reducer keeps arrival order: its output is the batch with some
    points left out, the others in the order they came, so it is never
    longer than the batch; and a batch that begins with a valid point keeps
    that point first. *)
Theorem reducer_keeps_arrival_order (points out : list Point) :
  reduce_points points = Ok out ->
  subseq out points
  /\ (List.length out <= List.length points)%nat
  /\ (forall p rest, points = p :: rest -> is_valid_point p = true ->
        exists out', out = p :: out').
Proof.
  intros H.
  destruct (reduce_loop_subseq _ _ _ H) as (kept & -> & Hs). simpl.
  split; [exact Hs|]. split; [now apply subseq_length|].
  intros p rest -> Hv. unfold reduce_points in H. simpl in H.
  rewrite Hv in H. simpl in H.
  destruct (reduce_loop_subseq _ _ _ H) as (kept' & E & _).
  now exists kept'.
Qed.

(** X6 at the batch of the scenario. *)
Lemma reducer_keeps_arrival_order_witness :
  subseq [pt f_0 f_0 f_0 1; pt f_5 f_5 f_5 2] scenario_batch.
Proof.
  apply (reducer_keeps_arrival_order scenario_batch).
  vm_compute. reflexivity.
Defined.

(** X7.  Labels play no part in what is kept: relabelling every point, in
    the batch and in the accumulated list, changes neither which points the
    reducer keeps, nor which points the merge loop stores, nor whether either
    raises; the points come out under their new labels. *)
Theorem labels_play_no_part
  (do_transform_point : TransformStamped -> Coords -> option Coords)
  (f : Z -> Z) :
  (forall points,
      reduce_points (map (relabel f) points)
      = result_map (map (relabel f)) (reduce_points points))
  /\ (forall acc transform points,
        merge_loop do_transform_point (map (relabel f) acc) transform
          (map (relabel f) points)
        = (map (relabel f)
             (fst (merge_loop do_transform_point acc transform points)),
           snd (merge_loop do_transform_point acc transform points))).
Proof.
  split.
  - intros points. apply (reduce_loop_relabel f points []).
  - intros acc transform points. apply merge_loop_relabel.
Qed.

(** X8.  Invalid points are inert: taking the points with a NaN or infinite
    coordinate out of a batch changes neither what the reducer returns nor
    anything about the pass, its final list and its outcome. *)
Theorem invalid_points_are_inert
  (do_transform_point : TransformStamped -> Coords -> option Coords)
  (acc : list Point) (msg : PointCloud2In) (lookup : result TransformStamped) :
  reduce_points (filter (fun p : Point => is_valid_point p) (in_points msg))
  = reduce_points (in_points msg)
  /\ pointcloud_callback do_transform_point acc
       (with_points msg
          (filter (fun p : Point => is_valid_point p) (in_points msg)))
       lookup
     = pointcloud_callback do_transform_point acc msg lookup.
Proof.
  split; [apply reduce_loop_filter_valid|].
  unfold pointcloud_callback. destruct lookup as [transform|e]; [|reflexivity].
  change (time_diff transform (with_points msg _)) with (time_diff transform msg).
  destruct (F64.ltb lit_0_1 _); [reflexivity|].
  unfold extract_points_from_pointcloud2, with_points. cbn [in_points].
  rewrite filter_swap. unfold reduce_points.
  rewrite reduce_loop_filter_valid. reflexivity.
Qed.

(** X9.  Every point a pass stores comes from the batch: the points appended
    are, in order, the transforms of points of the message taken in their
    order of arrival, each under the label of the point it comes from; a pass
    appends no more points than the message holds. *)
Theorem stored_points_come_from_the_batch
  (do_transform_point : TransformStamped -> Coords -> option Coords)
  (acc : list Point) (msg : PointCloud2In) (lookup : result TransformStamped) :
  exists kept new,
    fst (pointcloud_callback do_transform_point acc msg lookup) = acc ++ new
    /\ subseq kept (in_points msg)
    /\ (List.length new <= List.length (in_points msg))%nat
    /\ Forall2 (fun p q : Point =>
                  exists transform,
                    lookup = Ok transform
                    /\ stored_from do_transform_point transform p q)
               kept new.
Proof.
  destruct (callback_state do_transform_point acc msg lookup)
    as [->|(tf & pts & Hl & Hr & ->)].
  - exists [], []. rewrite app_nil_r. split; [reflexivity|].
    split; [apply subseq_nil_l|]. split; [simpl; lia | constructor].
  - destruct (merge_loop_provenance do_transform_point tf pts acc)
      as (kept & new & H1 & H2 & H3).
    assert (Hsub : subseq kept (in_points msg)).
    { apply (subseq_trans _ pts); [exact H2|].
      apply (subseq_trans _ (extract_points_from_pointcloud2 msg)).
      - destruct (reduce_loop_subseq _ _ _ Hr) as (k & -> & Hk). exact Hk.
      - apply subseq_filter. }
    exists kept, new. split; [exact H1|]. split; [exact Hsub|]. split.
    + rewrite <- (Forall2_length H3). now apply subseq_length.
    + clear - H3 Hl. induction H3; constructor; [|assumption].
      now exists tf.
Qed.

(** X10.  The publisher raises on labels only: [publish_point_cloud] raises
    exactly when some stored label is outside [0, 2^32), the exception is
    then [struct.error], and no coordinate, be it NaN, infinite or beyond the
    float32 range, makes it raise. *)
Theorem publisher_raises_on_bad_labels_only (acc : list Point) :
  (forall e, publish_point_cloud acc = Raise e -> e = StructError)
  /\ (publish_point_cloud acc = Raise StructError <-> Exists bad_label acc)
  /\ (Forall (fun p => uint32 (label p)) acc ->
      exists pub, publish_point_cloud acc = Ok pub).
Proof.
  split; [|split].
  - intros e H. apply publish_cloud_data in H. now apply cloud_data_raise in H.
  - rewrite publish_cloud_data. split.
    + intros H. now apply cloud_data_raise in H.
    + apply cloud_data_bad.
  - intros H. unfold publish_point_cloud. destruct acc as [|p acc]; [now eexists|].
    rewrite (cloud_data_ok _ H). simpl. now eexists.
Qed.

(** X11.  A stored label outside [0, 2^32) silences the publisher for good:
    the merge stores labels unchecked and nothing is ever removed, so once
    such a point is in the list no later pass, whatever the messages and
    transforms in between, hands a cloud to the publisher. *)
Theorem bad_label_blocks_publishing
  (do_transform_point : TransformStamped -> Coords -> option Coords)
  (acc : list Point) (inputs : list (PointCloud2In * result TransformStamped))
  (msg : PointCloud2In) (lookup : result TransformStamped) :
  Exists bad_label acc ->
  published (snd (pointcloud_callback do_transform_point
                    (run do_transform_point acc inputs) msg lookup))
  = None.
Proof.
  intros H.
  pose proof (run_bad_label do_transform_point inputs acc H) as Hr.
  pose proof (bad_label_stays do_transform_point _ msg lookup Hr) as Hs.
  destruct (callback_published do_transform_point
              (run do_transform_point acc inputs) msg lookup)
    as [Hn|(m & _ & Hp)]; [exact Hn|].
  apply cloud_data_bad in Hs. apply publish_cloud_data in Hs.
  rewrite Hs in Hp. discriminate.
Qed.

(** X11 at a concrete life of the node: a first message brings a point
    labelled -1, which the pass stores; the pass of a second, well-formed
    message publishes nothing. *)
Lemma bad_label_blocks_publishing_witness :
  fst (pointcloud_callback translate []
         (mkCloudIn 0 "camera" [pt f_1 f_2 f_3 (-1)])
         (Ok (identity_transform 0)))
  = [pt f_1 f_2 f_3 (-1)]
  /\ published (snd (pointcloud_callback translate
                       (run translate [pt f_1 f_2 f_3 (-1)] [])
                       (mkCloudIn 0 "camera" [pt f_5 f_5 f_5 2])
                       (Ok (identity_transform 0))))
     = None.
Proof.
  split; [vm_compute; reflexivity|].
  apply bad_label_blocks_publishing.
  left. unfold bad_label, uint32. simpl. lia.
Defined.

(** X12.  A pass that publishes, publishes the whole accumulated list: the
    message's width is the length of the list the pass leaves, its data are
    the records of all its points, old and new, in insertion order, and its
    steps agree with its data ([row_step = point_step * width], and
    [row_step * height] bytes of data).  A pass that completes without
    publishing leaves the list empty. *)
Theorem completed_pass_publishes_whole_list
  (do_transform_point : TransformStamped -> Coords -> option Coords)
  (acc : list Point) (msg : PointCloud2In) (lookup : result TransformStamped) :
  let pass := pointcloud_callback do_transform_point acc msg lookup in
  match snd pass with
  | Completed (Some m) =>
      fst pass <> []
      /\ width m = Z.of_nat (List.length (fst pass))
      /\ data m = flat_map record_bytes (fst pass)
      /\ Z.of_nat (List.length (data m)) = row_step m * height m
      /\ row_step m = point_step m * width m
      /\ Forall (fun p => uint32 (label p)) (fst pass)
  | Completed None => fst pass = []
  | _ => True
  end.
Proof.
  intros pass. subst pass. unfold pointcloud_callback.
  destruct lookup as [tf|e]; [|now destruct (caught e)].
  destruct (F64.ltb lit_0_1 _); [exact I|].
  destruct (reduce_points _) as [pts|e]; [|exact I].
  destruct (merge_loop do_transform_point acc tf pts) as [acc' [e|]]; [exact I|].
  destruct (publish_point_cloud acc') as [pub|e] eqn:Hp; [|exact I].
  cbn [fst snd].
  destruct pub as [m|].
  - destruct (publish_shape acc' m Hp) as (Hne & Hd & Hw & Hr & Hs & Hh).
    assert (Hl : Forall (fun q => uint32 (label q)) acc').
    { apply Forall_forall. intros q Hq.
      destruct (Z.le_gt_cases 0 (label q)) as [H0|H0],
               (Z.lt_ge_cases (label q) (2 ^ 32)) as [H1|H1];
        try (now split);
        (assert (Hb : Exists bad_label acc')
          by (apply Exists_exists; exists q; split; [exact Hq|];
              unfold bad_label, uint32; lia);
         apply cloud_data_bad in Hb; rewrite Hb in Hd; discriminate). }
    assert (Ed : data m = flat_map record_bytes acc')
      by (rewrite (cloud_data_ok _ Hl) in Hd; congruence).
    split; [exact Hne|]. split; [exact Hw|]. split; [exact Ed|].
    split; [rewrite Ed, length_flat_map_record_bytes; lia|].
    split; [lia | exact Hl].
  - destruct acc' as [|p acc']; [reflexivity|].
    unfold publish_point_cloud in Hp.
    destruct (cloud_data (p :: acc')); discriminate.
Qed.

(** X13.  Narrowing to float32 is idempotent: a coordinate that already is a
    float32 value is packed exactly, packing a value and packing its float32
    rounding give the same four bytes, and these bytes read back as the
    rounding. *)
Theorem float32_narrowing_is_idempotent (v : float) :
  F32.of_double (F32.of_double v) = F32.of_double v
  /\ pack_f (F32.of_double v) = pack_f v
  /\ F32.of_bits (le_combine (pack_f v)) = F32.of_double v.
Proof.
  assert (H : F32.of_double (F32.of_double v) = F32.of_double v)
    by apply f32_of_double_exact, f32_of_double_valid.
  split; [exact H|]. split; [unfold pack_f; now rewrite H|].
  unfold pack_f.
  destruct (f32_of_bits_to_bits _ (f32_of_double_valid v)) as [Hb Hr].
  now rewrite le_combine_split_4.
Qed.

(** X14.  The accumulated list passes the reducer unchanged: the merger's
    threshold 0.01 is above the reducer's 0.002, so after any sequence of
    passes [reduce_points] applied to the stored list returns it as it is,
    without raising. *)
Theorem accumulated_list_passes_the_reducer
  (do_transform_point : TransformStamped -> Coords -> option Coords)
  (inputs : list (PointCloud2In * result TransformStamped)) :
  reduce_points (run do_transform_point [] inputs)
  = Ok (run do_transform_point [] inputs).
Proof.
  apply (reduce_loop_fixed _ []). simpl.
  apply sparse_0_01_0_002, run_sparse, sparse_nil.
Qed.

(** X15.  A pass over well-formed data completes.  When the transform is
    stamped at most 0.1 s after the message, the stored points and the
    message's points are in range with uint32 labels, and the transform
    keeps the message's points in range, the callback raises nothing: it
    ends at the publisher, with a cloud whenever the list is not empty, and
    leaves a list that is well-formed again. *)
Theorem in_range_pass_completes
  (do_transform_point : TransformStamped -> Coords -> option Coords)
  (acc : list Point) (msg : PointCloud2In) (transform : TransformStamped) :
  tf_stamp transform - in_stamp msg <= 100000000 ->
  Forall well_formed acc ->
  Forall well_formed (in_points msg) ->
  (forall p tp, In p (in_points msg) ->
     transform_point do_transform_point p transform = Some tp ->
     point_in_range tp = true) ->
  exists acc' pub,
    pointcloud_callback do_transform_point acc msg (Ok transform)
    = (acc', Completed pub)
    /\ Forall well_formed acc'
    /\ (acc' <> [] -> exists m, pub = Some m).
Proof.
  intros Hgate Hacc Hmsg Ht. unfold pointcloud_callback.
  rewrite stale_time_diff, stale_iff.
  assert (Hg : (100000000 <? tf_stamp transform - in_stamp msg) = false)
    by (apply Z.ltb_ge; exact Hgate).
  rewrite Hg.
  assert (Hin : incl (extract_points_from_pointcloud2 msg) (in_points msg)).
  { intros p Hp. unfold extract_points_from_pointcloud2 in Hp.
    apply filter_In in Hp. apply Hp. }
  rewrite Forall_forall in Hmsg.
  destruct (reduce_loop_total (extract_points_from_pointcloud2 msg) [])
    as [pts Hpts].
  { constructor. }
  { apply Forall_forall. intros p Hp. apply (Hmsg p (Hin p Hp)). }
  unfold reduce_points. rewrite Hpts.
  assert (Hsub : incl pts (in_points msg)).
  { intros p Hp. destruct (reduce_loop_incl _ _ _ Hpts p Hp) as [[]|H].
    now apply Hin. }
  destruct (merge_loop_total do_transform_point transform pts acc Hacc)
    as (acc' & -> & Hacc').
  { apply Forall_forall. intros p Hp. apply (Hmsg p (Hsub p Hp)). }
  { intros p tp Hp. apply Ht. now apply Hsub. }
  assert (Hl : Forall (fun p => uint32 (label p)) acc').
  { apply Forall_forall. intros p Hp. rewrite Forall_forall in Hacc'.
    apply (Hacc' p Hp). }
  unfold publish_point_cloud. destruct acc' as [|p acc'].
  - exists [], None. split; [reflexivity|]. split; [constructor | congruence].
  - rewrite (cloud_data_ok _ Hl). cbn [bind].
    eexists _, _. split; [reflexivity|]. split; [exact Hacc'|].
    intros _. now eexists.
Qed.

(** X15 at a concrete pass: the batch of the scenario, under the identity
    transform stamped exactly 0.1 s after it, into a list of one point. *)
Lemma in_range_pass_completes_witness :
  exists acc' pub,
    pointcloud_callback translate [pt f_1 f_2 f_3 7]
      (mkCloudIn 0 "camera" scenario_batch) (Ok (identity_transform 100000000))
    = (acc', Completed pub).
Proof.
  destruct (in_range_pass_completes translate [pt f_1 f_2 f_3 7]
              (mkCloudIn 0 "camera" scenario_batch)
              (identity_transform 100000000))
    as (acc' & pub & H & _).
  - simpl. lia.
  - repeat constructor; simpl; lia.
  - repeat constructor; simpl; lia.
  - intros p tp [<-|[<-|[<-|[]]]] H; vm_compute in H; injection H as <-;
      reflexivity.
  - now exists acc', pub.
Defined.

(** X16.  Both loops take a batch part by part: merging [l1 ++ l2] is
    merging [l1] and then [l2] into the list the first part left, and
    reducing [l1 ++ l2] is reducing [l1] and going on with [l2] from the
    points kept.  An exception in the first part ends the merge there, and
    the points stored before it stay stored. *)
Theorem loops_take_a_batch_part_by_part
  (do_transform_point : TransformStamped -> Coords -> option Coords)
  (acc : list Point) (transform : TransformStamped) (l1 l2 : list Point) :
  merge_loop do_transform_point acc transform (l1 ++ l2)
  = match merge_loop do_transform_point acc transform l1 with
    | (acc', None) => merge_loop do_transform_point acc' transform l2
    | (acc', Some e) => (acc', Some e)
    end
  /\ reduce_points (l1 ++ l2)
     = (kept <- reduce_points l1 ;; reduce_loop kept l2)
  /\ exists new,
       fst (merge_loop do_transform_point acc transform (l1 ++ l2))
       = fst (merge_loop do_transform_point acc transform l1) ++ new.
Proof.
  split; [apply merge_loop_app|]. split; [apply reduce_loop_app|].
  rewrite merge_loop_app.
  destruct (merge_loop do_transform_point acc transform l1) as [acc' [e|]].
  - exists []. now rewrite app_nil_r.
  - destruct (merge_loop_appends do_transform_point transform l2 acc')
      as (new & -> & _).
    now exists new.
Qed.


